(** * Cat Court: the session orchestrator of [App.tsx]

    A shallow embedding of the state and of the event handlers of the [App]
    component ([src/App.tsx]) together with the data model of [src/types.ts],
    followed by the properties of the handlers.

    - JavaScript strings are sequences of UTF-16 code units.
    - The [useState] cells and the [useRef] cell of the component form one
      record, [AppState]; every [setX] call is a record update.
    - Handlers are computations in a small monad that threads the component
      state and a trace of the observable effects (service calls, sounds,
      console output, alerts), with ECMAScript completions for [return] and
      [throw], and combinators for [try]/[catch]/[finally].
    - The services imported by the component ([geminiService],
      [storageService]) are not part of the component: their answers are read
      from an environment, one settled promise per call. *)

From Stdlib Require Import ZArith NArith List Bool Lia String Ascii.
From Stdlib Require Import Floats.PrimFloat.
Import ListNotations.

Set Implicit Arguments.

(** ** JavaScript strings *)

(** A string is its list of UTF-16 code units. *)
Definition jsstring := list N.

(** The code units of an ASCII literal. *)
Fixpoint utf16 (s : string) : jsstring :=
  match s with
  | EmptyString => []
  | String c rest => N_of_ascii c :: utf16 rest
  end.

(** [!!s] for a string: only the empty string is falsy. *)
Definition truthy (s : jsstring) : bool :=
  match s with
  | [] => false
  | _ :: _ => true
  end.

(** [a || b] on strings. *)
Definition or_else (a b : jsstring) : jsstring :=
  if truthy a then a else b.

(** ECMAScript [WhiteSpace] and [LineTerminator] code points, the ones
    [String.prototype.trim] strips. *)
Definition isWhiteSpace (c : N) : bool :=
  (   (c =? 0x0009) || (c =? 0x000A) || (c =? 0x000B) || (c =? 0x000C)
   || (c =? 0x000D) || (c =? 0x0020) || (c =? 0x00A0) || (c =? 0x1680)
   || ((0x2000 <=? c) && (c <=? 0x200A))
   || (c =? 0x2028) || (c =? 0x2029) || (c =? 0x202F) || (c =? 0x205F)
   || (c =? 0x3000) || (c =? 0xFEFF))%N.

Fixpoint trimStart (s : jsstring) : jsstring :=
  match s with
  | [] => []
  | c :: rest => if isWhiteSpace c then trimStart rest else s
  end.

Definition trimEnd (s : jsstring) : jsstring :=
  rev (trimStart (rev s)).

Definition trim (s : jsstring) : jsstring :=
  trimEnd (trimStart s).

(** A string with no character other than white space: what [trim] turns into
    the empty string. *)
Definition blank (s : jsstring) : bool := forallb isWhiteSpace s.

(** ** The data model of [types.ts] *)

(** [number] is an IEEE 754 binary64; the percentages of a verdict come from
    the judgment service and are never inspected by the component. *)
Definition number := float.

Record Verdict := {
  catPercentage : number;
  dogPercentage : number;
  reasoning : jsstring;
  solution : jsstring
}.

(** [roundNumber] is always produced as [history.length + 1]: an integer. *)
Module CaseRound.
Record t := {
  roundNumber : Z;
  catArg : jsstring;
  dogArg : jsstring;
  verdict : Verdict
}.
End CaseRound.

(** Each image is [string | null]. *)
Record CharacterImages := {
  judge : option jsstring;
  catDebater : option jsstring;
  dogDebater : option jsstring
}.

Inductive CharacterType := JUDGE | CAT_DEBATER | DOG_DEBATER.

Definition prompt_tail : jsstring :=
  utf16 " Not flat, not minimalist, not vector-art, not icon-style, not geometric.".

Definition CharacterPrompts (t : CharacterType) : jsstring :=
  match t with
  | JUDGE =>
      utf16 "Cute chibi-style anthropomorphic orange tabby cat judge with soft detailed shading and gentle fur texture. Large head, big glossy round eyes, warm friendly expression. Wearing a traditional judge"
      ++ [0x2019%N]
      ++ utf16 "s robe and white curled wig, holding a wooden gavel and a small book. Pastel colors, smooth clean line art, soft lighting, adorable cartoon illustration style. Circular avatar frame with a simple courtroom background."
      ++ prompt_tail
  | CAT_DEBATER =>
      utf16 "Cute chibi-style anthropomorphic British Shorthair cat debater with plush dense fur and soft detailed shading. Round head, big glossy eyes, chubby cheeks, calm confident expression. Wearing debate attire or a neat suit, holding a microphone or debate notes. Pastel colors, smooth clean line art, soft lighting, cute cartoon illustration style. Circular avatar frame with a simple debate podium background."
      ++ prompt_tail
  | DOG_DEBATER =>
      utf16 "Cute chibi-style anthropomorphic Corgi dog debater with fluffy white and orange-brown fur and soft detailed shading. Large pointed ears, big glossy eyes, happy confident expression. Wearing debate attire or a neat suit, holding a microphone or debate notes. Pastel colors, smooth clean line art, soft lighting, cute cartoon illustration style. Circular avatar frame with a simple debate podium background."
      ++ prompt_tail
  end.

(** ** The state of the component *)

Definition STORAGE_KEY : jsstring := utf16 "purrfect_justice_avatars_v1".

(** The seven [useState] cells and the [lastTypeTime] ref (a [Date.now()]
    value: integer milliseconds). *)
Record AppState := {
  images : CharacterImages;
  loadingImages : bool;
  catName : jsstring;
  dogName : jsstring;
  catArg : jsstring;
  dogArg : jsstring;
  verdict : option Verdict;
  isJudging : bool;
  history : list CaseRound.t;
  lastTypeTime : Z
}.

(** The initial values given to [useState] and [useRef]. *)
Definition initialState : AppState := {|
  images := {| judge := None; catDebater := None; dogDebater := None |};
  loadingImages := true;
  catName := [];
  dogName := [];
  catArg := [];
  dogArg := [];
  verdict := None;
  isJudging := false;
  history := [];
  lastTypeTime := 0
|}.

Definition with_images (v : CharacterImages) (s : AppState) : AppState :=
  {| images := v; loadingImages := loadingImages s; catName := catName s;
     dogName := dogName s; catArg := catArg s; dogArg := dogArg s;
     verdict := verdict s; isJudging := isJudging s; history := history s;
     lastTypeTime := lastTypeTime s |}.

Definition with_loadingImages (v : bool) (s : AppState) : AppState :=
  {| images := images s; loadingImages := v; catName := catName s;
     dogName := dogName s; catArg := catArg s; dogArg := dogArg s;
     verdict := verdict s; isJudging := isJudging s; history := history s;
     lastTypeTime := lastTypeTime s |}.

Definition with_catName (v : jsstring) (s : AppState) : AppState :=
  {| images := images s; loadingImages := loadingImages s; catName := v;
     dogName := dogName s; catArg := catArg s; dogArg := dogArg s;
     verdict := verdict s; isJudging := isJudging s; history := history s;
     lastTypeTime := lastTypeTime s |}.

Definition with_dogName (v : jsstring) (s : AppState) : AppState :=
  {| images := images s; loadingImages := loadingImages s; catName := catName s;
     dogName := v; catArg := catArg s; dogArg := dogArg s;
     verdict := verdict s; isJudging := isJudging s; history := history s;
     lastTypeTime := lastTypeTime s |}.

Definition with_catArg (v : jsstring) (s : AppState) : AppState :=
  {| images := images s; loadingImages := loadingImages s; catName := catName s;
     dogName := dogName s; catArg := v; dogArg := dogArg s;
     verdict := verdict s; isJudging := isJudging s; history := history s;
     lastTypeTime := lastTypeTime s |}.

Definition with_dogArg (v : jsstring) (s : AppState) : AppState :=
  {| images := images s; loadingImages := loadingImages s; catName := catName s;
     dogName := dogName s; catArg := catArg s; dogArg := v;
     verdict := verdict s; isJudging := isJudging s; history := history s;
     lastTypeTime := lastTypeTime s |}.

Definition with_verdict (v : option Verdict) (s : AppState) : AppState :=
  {| images := images s; loadingImages := loadingImages s; catName := catName s;
     dogName := dogName s; catArg := catArg s; dogArg := dogArg s;
     verdict := v; isJudging := isJudging s; history := history s;
     lastTypeTime := lastTypeTime s |}.

Definition with_isJudging (v : bool) (s : AppState) : AppState :=
  {| images := images s; loadingImages := loadingImages s; catName := catName s;
     dogName := dogName s; catArg := catArg s; dogArg := dogArg s;
     verdict := verdict s; isJudging := v; history := history s;
     lastTypeTime := lastTypeTime s |}.

Definition with_history (v : list CaseRound.t) (s : AppState) : AppState :=
  {| images := images s; loadingImages := loadingImages s; catName := catName s;
     dogName := dogName s; catArg := catArg s; dogArg := dogArg s;
     verdict := verdict s; isJudging := isJudging s; history := v;
     lastTypeTime := lastTypeTime s |}.

Definition with_lastTypeTime (v : Z) (s : AppState) : AppState :=
  {| images := images s; loadingImages := loadingImages s; catName := catName s;
     dogName := dogName s; catArg := catArg s; dogArg := dogArg s;
     verdict := verdict s; isJudging := isJudging s; history := history s;
     lastTypeTime := v |}.

(** ** Effects *)

(** A thrown JavaScript value, kept as its message. *)
Definition exn := jsstring.

(** A settled promise. *)
Inductive promise (A : Type) :=
| Fulfilled (a : A)
| Rejected (e : exn).
Arguments Fulfilled {A} a.
Arguments Rejected {A} e.

(** The calls the component makes to the imported services. *)
Inductive Call :=
| LoadImagesFromDB (key : jsstring)
| SaveImagesToDB (key : jsstring) (imgs : CharacterImages)
| GenerateCharacterImage (prompt : jsstring)
| GetJudgment (catArg dogArg catName dogName : jsstring)
              (history : list CaseRound.t).

Inductive Sound := typing | gavel.

(** What a handler does that is visible outside the component state.
    [EvAwait s] marks a suspension at an [await]: control returns to the event
    loop and [s] is the state on screen while the promise is pending. *)
Inductive Event :=
| EvCall (c : Call)
| EvAwait (s : AppState)
| EvPlaySound (s : Sound)
| EvConsoleWarn (msg : jsstring) (e : exn)
| EvConsoleError (msg : option jsstring) (e : exn)
| EvAlert (msg : jsstring)
| EvScrollToTop.

(** The answers of the services, and the order in which the promises of one
    [Promise.all] settle (as positions in its argument array). The services
    are imported by the component; what they take and return is read off the
    calls made to them. A handler is verified for every environment. *)
Record Env := {
  db_load : jsstring -> promise (option CharacterImages);
  db_save : jsstring -> CharacterImages -> promise unit;
  gemini_image : jsstring -> promise jsstring;
  gemini_judgment :
    jsstring -> jsstring -> jsstring -> jsstring -> list CaseRound.t ->
    promise Verdict;
  settle_order : list nat
}.

Record World := {
  ui : AppState;
  trace : list Event
}.

(** ECMAScript completions: normal, [return], [throw]. Every function of the
    component returns [void], so [Returned] carries no value. *)
Inductive completion (A : Type) :=
| Normal (a : A)
| Returned
| Thrown (e : exn).
Arguments Normal {A} a.
Arguments Returned {A}.
Arguments Thrown {A} e.

Definition M (A : Type) := Env -> World -> completion A * World.

Definition ret {A} (a : A) : M A := fun _ w => (Normal a, w).

Definition bind {A B} (m : M A) (k : A -> M B) : M B :=
  fun env w =>
    match m env w with
    | (Normal a, w') => k a env w'
    | (Returned, w') => (Returned, w')
    | (Thrown e, w') => (Thrown e, w')
    end.

Declare Scope js_scope.
Delimit Scope js_scope with js.
Notation "x <- m ;; k" := (bind m (fun x => k))
  (at level 61, m at next level, right associativity) : js_scope.
Notation "m ;; k" := (bind m (fun _ => k))
  (at level 61, right associativity) : js_scope.
Open Scope js_scope.

(** [return;] *)
Definition return_ {A} : M A := fun _ w => (Returned, w).

(** [throw e;] *)
Definition throw {A} (e : exn) : M A := fun _ w => (Thrown e, w).

(** The current values of the state cells. A handler reads them once, on
    entry: that is the closure of the render it was created by. *)
Definition get : M AppState := fun _ w => (Normal (ui w), w).

Definition modify (f : AppState -> AppState) : M unit :=
  fun _ w => (Normal tt, {| ui := f (ui w); trace := trace w |}).

Definition emit (ev : Event) : M unit :=
  fun _ w => (Normal tt, {| ui := ui w; trace := trace w ++ [ev] |}).

Definition ask : M Env := fun env w => (Normal env, w).

(** [try { body } catch (e) { handler e }] *)
Definition try_catch {A} (body : M A) (handler : exn -> M A) : M A :=
  fun env w =>
    match body env w with
    | (Thrown e, w') => handler e env w'
    | r => r
    end.

(** [try { body } finally { final }]: [final] runs whatever the completion of
    [body]; that completion stands unless [final] itself is abrupt. *)
Definition try_finally {A} (body : M A) (final : M unit) : M A :=
  fun env w =>
    match body env w with
    | (c, w') =>
        match final env w' with
        | (Normal _, w'') => (c, w'')
        | (Returned, w'') => (Returned, w'')
        | (Thrown e, w'') => (Thrown e, w'')
        end
    end.

(** A function body: [return] ends the call normally; an exception escapes
    (for an [async] function, as the rejection of its promise). *)
Definition fn (body : M unit) : M unit :=
  fun env w =>
    match body env w with
    | (Returned, w') => (Normal tt, w')
    | r => r
    end.

(** [await p] *)
Definition await {A} (p : promise A) : M A :=
  s <- get ;;
  emit (EvAwait s) ;;
  match p with
  | Fulfilled a => ret a
  | Rejected e => throw e
  end.

(** Invoking an [async] service function: the call is issued, and its promise
    is the one the environment settles. *)
Definition invoke {A} (c : Call) (answer : Env -> promise A) : M (promise A) :=
  emit (EvCall c) ;;
  env <- ask ;;
  ret (answer env).

(** The reason [Promise.all] rejects with: that of the promise that rejects
    first. [order] lists positions by settling time; positions it does not
    mention settle afterwards, in array order. *)
Fixpoint first_rejection (rs : list (option exn)) (order : list nat) : option exn :=
  match order with
  | [] => None
  | i :: rest =>
      match nth i rs None with
      | Some e => Some e
      | None => first_rejection rs rest
      end
  end.

Definition rejection {A} (p : promise A) : option exn :=
  match p with
  | Fulfilled _ => None
  | Rejected e => Some e
  end.

(** [Promise.all([p1, p2, p3])]: fulfilled with the three values when all
    three are, rejected as soon as one is. *)
Definition Promise_all3 {A B C} (order : list nat)
    (p1 : promise A) (p2 : promise B) (p3 : promise C) : promise (A * B * C) :=
  match p1, p2, p3 with
  | Fulfilled a, Fulfilled b, Fulfilled c => Fulfilled (a, b, c)
  | _, _, _ =>
      match first_rejection [rejection p1; rejection p2; rejection p3]
                            (order ++ [0; 1; 2])%nat with
      | Some e => Rejected e
      | None => Rejected []
      end
  end.

(** The component's own primitives. *)
Definition setImages v := modify (with_images v).
Definition setLoadingImages v := modify (with_loadingImages v).
Definition setCatName v := modify (with_catName v).
Definition setDogName v := modify (with_dogName v).
Definition setCatArg v := modify (with_catArg v).
Definition setDogArg v := modify (with_dogArg v).
Definition setVerdict v := modify (with_verdict v).
Definition setIsJudging v := modify (with_isJudging v).
Definition setHistory v := modify (with_history v).

Definition playSound (s : Sound) : M unit := emit (EvPlaySound s).
Definition console_warn msg e : M unit := emit (EvConsoleWarn msg e).
Definition console_error msg e : M unit := emit (EvConsoleError msg e).
Definition alert msg : M unit := emit (EvAlert msg).
Definition window_scrollTo_top : M unit := emit EvScrollToTop.

(** The imported services. *)
Definition loadImagesFromDB (key : jsstring) :=
  invoke (LoadImagesFromDB key) (fun env => db_load env key).

Definition saveImagesToDB (key : jsstring) (imgs : CharacterImages) :=
  invoke (SaveImagesToDB key imgs) (fun env => db_save env key imgs).

Definition generateCharacterImage (prompt : jsstring) :=
  invoke (GenerateCharacterImage prompt) (fun env => gemini_image env prompt).

Definition getJudgment (catArg dogArg catName dogName : jsstring)
    (history : list CaseRound.t) :=
  invoke (GetJudgment catArg dogArg catName dogName history)
         (fun env => gemini_judgment env catArg dogArg catName dogName history).

(** ** The handlers of [App.tsx] *)

(** Truthiness of a [string | null] field: [null] and the empty string are
    falsy. *)
Definition truthy_field (o : option jsstring) : bool :=
  match o with
  | Some s => truthy s
  | None => false
  end.

(** [cached && cached.judge && cached.catDebater && cached.dogDebater] *)
Definition cache_hit (cached : option CharacterImages) : bool :=
  match cached with
  | Some c =>
      truthy_field (judge c) && truthy_field (catDebater c)
      && truthy_field (dogDebater c)
  | None => false
  end.

(** Step 1 of [loadImages]: try the store first. A full record ends the whole
    function ([return]); an error is logged and swallowed. *)
Definition loadFromCache : M unit :=
  try_catch
    (p <- loadImagesFromDB STORAGE_KEY ;;
     cached <- await p ;;
     match cached with
     | Some c =>
         if cache_hit cached
         then setImages c ;; setLoadingImages false ;; return_
         else ret tt
     | None => ret tt
     end)
    (fun e => console_warn (utf16 "Failed to load images from DB") e).

(** Steps 2 and 3 of [loadImages]: generate the three images, then save them. *)
Definition generateImages : M unit :=
  setLoadingImages true ;;
  try_finally
    (try_catch
       (pJudge <- generateCharacterImage (CharacterPrompts JUDGE) ;;
        pCat <- generateCharacterImage (CharacterPrompts CAT_DEBATER) ;;
        pDog <- generateCharacterImage (CharacterPrompts DOG_DEBATER) ;;
        env <- ask ;;
        imgs <- await (Promise_all3 (settle_order env) pJudge pCat pDog) ;;
        let '(judgeImg, catImg, dogImg) := imgs in
        let newImages :=
          {| judge := Some judgeImg;
             catDebater := Some catImg;
             dogDebater := Some dogImg |} in
        setImages newImages ;;
        pSave <- saveImagesToDB STORAGE_KEY newImages ;;
        await pSave)
       (fun apiError =>
          console_error (Some (utf16 "Failed to generate images:")) apiError))
    (setLoadingImages false).

(** The effect run on mount. *)
Definition loadImages : M unit := fn (loadFromCache ;; generateImages).

(** [now] is the value of [Date.now()]. *)
Definition handleTypingSound (now : Z) : M unit := fn (
  s <- get ;;
  if (now - lastTypeTime s >? 100)%Z
  then playSound typing ;; modify (with_lastTypeTime now)
  else ret tt).

Definition defaultCatName : jsstring := [0x55B5; 0x55B5; 0x8FA9; 0x624B]%N.
Definition defaultDogName : jsstring := [0x6C6A; 0x6C6A; 0x8FA9; 0x624B]%N.

(** The text of the alert shown when the judgment fails. *)
Definition judgeAsleep : jsstring :=
  [0x6CD5; 0x5B98; 0x6B63; 0x5728; 0x6253; 0x76F9; 0xFF0C; 0x8BF7; 0x91CD;
   0x8BD5; 0x3002]%N.

Definition handleJudgeClick : M unit := fn (
  c <- get ;;
  (if negb (truthy (trim (catArg c))) || negb (truthy (trim (dogArg c)))
   then return_ else ret tt) ;;
  playSound gavel ;;
  setIsJudging true ;;
  setVerdict None ;;
  let effectiveCatName := or_else (catName c) defaultCatName in
  let effectiveDogName := or_else (dogName c) defaultDogName in
  try_finally
    (try_catch
       (p <- getJudgment (catArg c) (dogArg c)
                         effectiveCatName effectiveDogName (history c) ;;
        result <- await p ;;
        setVerdict (Some result))
       (fun e => console_error None e ;; alert judgeAsleep))
    (setIsJudging false)).

Definition handleAppeal : M unit := fn (
  c <- get ;;
  match verdict c with
  | None => return_
  | Some v =>
      let newRound :=
        {| CaseRound.roundNumber := Z.of_nat (List.length (history c)) + 1;
           CaseRound.catArg := catArg c;
           CaseRound.dogArg := dogArg c;
           CaseRound.verdict := v |} in
      setHistory (history c ++ [newRound]) ;;
      setVerdict None ;;
      setCatArg [] ;;
      setDogArg [] ;;
      window_scrollTo_top
  end).

Definition handleAcceptVerdict : M unit := fn (
  setVerdict None ;;
  setCatArg [] ;;
  setDogArg [] ;;
  setHistory [] ;;
  setCatName [] ;;
  setDogName [] ;;
  window_scrollTo_top).

(** ** The controls the component renders *)

(** Which buttons the JSX puts on screen for a state, and whether the judge
    button and the two text areas are disabled. *)
Record Controls := {
  judgeButton : bool;
  judgeButtonDisabled : bool;
  textareaDisabled : bool;
  acceptButton : bool;
  appealButton : bool
}.

Definition is_some {A} (o : option A) : bool :=
  match o with
  | Some _ => true
  | None => false
  end.

Definition render (s : AppState) : Controls := {|
  judgeButton := negb (is_some (verdict s));
  judgeButtonDisabled :=
    isJudging s || negb (truthy (catArg s)) || negb (truthy (dogArg s));
  textareaDisabled := isJudging s || is_some (verdict s);
  acceptButton := is_some (verdict s);
  appealButton := is_some (verdict s)
|}.

Inductive Click := ClickJudge | ClickAccept | ClickAppeal.

(** A click runs the [onClick] handler of a button that is on screen and
    enabled, and nothing otherwise. *)
Definition click (b : Click) : M unit :=
  s <- get ;;
  match b with
  | ClickJudge =>
      if judgeButton (render s) && negb (judgeButtonDisabled (render s))
      then handleJudgeClick else ret tt
  | ClickAccept =>
      if acceptButton (render s) then handleAcceptVerdict else ret tt
  | ClickAppeal =>
      if appealButton (render s) then handleAppeal else ret tt
  end.

(** Running a handler from a state, with an empty trace. *)
Definition run {A} (m : M A) (env : Env) (s : AppState) : completion A * World :=
  m env {| ui := s; trace := [] |}.

Definition final_state {A} (r : completion A * World) : AppState := ui (snd r).
Definition effects {A} (r : completion A * World) : list Event := trace (snd r).


(** ** Sample data

    Concrete states and service answers, used to instantiate the properties
    below. *)

Definition sampleVerdict : Verdict := {|
  catPercentage := 60%float;
  dogPercentage := 40%float;
  reasoning := utf16 "The box was claimed first by the cat.";
  solution := utf16 "Share the box on alternate days."
|}.

Definition sampleImages : CharacterImages := {|
  judge := Some (utf16 "data:image/png;base64,JUDGE");
  catDebater := Some (utf16 "data:image/png;base64,CAT");
  dogDebater := Some (utf16 "data:image/png;base64,DOG")
|}.

(** Every service answers. *)
Definition happyEnv : Env := {|
  db_load := fun _ => Fulfilled None;
  db_save := fun _ _ => Fulfilled tt;
  gemini_image := fun prompt => Fulfilled (utf16 "data:image/png;base64," ++ firstn 9 (skipn 32 prompt));
  gemini_judgment := fun _ _ _ _ _ => Fulfilled sampleVerdict;
  settle_order := [0; 1; 2]%nat
|}.

(** The store holds a full record. *)
Definition cachedEnv : Env := {|
  db_load := fun _ => Fulfilled (Some sampleImages);
  db_save := fun _ _ => Fulfilled tt;
  gemini_image := fun _ => Rejected (utf16 "quota exceeded");
  gemini_judgment := fun _ _ _ _ _ => Fulfilled sampleVerdict;
  settle_order := [0; 1; 2]%nat
|}.

(** The store fails, the image service answers, the judgment service fails. *)
Definition brokenDbEnv : Env := {|
  db_load := fun _ => Rejected (utf16 "InvalidStateError");
  db_save := fun _ _ => Fulfilled tt;
  gemini_image := fun _ => Fulfilled (utf16 "data:image/png;base64,AAAA");
  gemini_judgment := fun _ _ _ _ _ => Rejected (utf16 "503");
  settle_order := [2; 0; 1]%nat
|}.

(** The image service fails for the dog only. *)
Definition dogFailsEnv : Env := {|
  db_load := fun _ => Fulfilled None;
  db_save := fun _ _ => Fulfilled tt;
  gemini_image := fun prompt =>
    if list_eq_dec N.eq_dec prompt (CharacterPrompts DOG_DEBATER)
    then Rejected (utf16 "quota exceeded")
    else Fulfilled (utf16 "data:image/png;base64,AAAA");
  gemini_judgment := fun _ _ _ _ _ => Fulfilled sampleVerdict;
  settle_order := [1; 2; 0]%nat
|}.

(** The example of the specification: first round, both sides have written. *)
Definition boxDispute : AppState :=
  with_dogArg (utf16 "I share everything")
    (with_catArg (utf16 "the box is mine")
       (with_loadingImages false (with_images sampleImages initialState))).

(** The same dispute once the verdict is on screen. *)
Definition boxVerdict : AppState := with_verdict (Some sampleVerdict) boxDispute.

(** Both sides have typed something, but the cat only two spaces. *)
Definition spacesDispute : AppState :=
  with_dogArg (utf16 "woof") (with_catArg (utf16 "  ") initialState).

(** The cat has made its case and the dog has only pressed Enter. *)
Definition newlineDispute : AppState :=
  with_dogArg [0x000A%N] (with_catArg (utf16 "the box is mine") initialState).

(** ** Reading a run *)

(** The judgment call [handleJudgeClick] makes from a state. *)
Definition judgmentCall (s : AppState) : Call :=
  GetJudgment (catArg s) (dogArg s)
    (or_else (catName s) defaultCatName) (or_else (dogName s) defaultDogName)
    (history s).

(** The state on screen while the judgment is pending. *)
Definition judging (s : AppState) : AppState :=
  with_verdict None (with_isJudging true s).

(** The prompts of the image-generation calls in a trace, in order. *)
Definition generation_calls (t : list Event) : list jsstring :=
  flat_map (fun ev =>
              match ev with
              | EvCall (GenerateCharacterImage prompt) => [prompt]
              | _ => []
              end) t.

(** The writes to the store in a trace, in order. *)
Definition saves (t : list Event) : list (jsstring * CharacterImages) :=
  flat_map (fun ev =>
              match ev with
              | EvCall (SaveImagesToDB key imgs) => [(key, imgs)]
              | _ => []
              end) t.

(** An image that is there: a payload, and not the empty one. *)
Definition present (img : option jsstring) : Prop :=
  exists payload, img = Some payload /\ payload <> [].

(** A record with all three images present. *)
Definition fully_populated (c : CharacterImages) : Prop :=
  present (judge c) /\ present (catDebater c) /\ present (dogDebater c).

(** Whether the startup load is answered from the store. *)
Definition served_from_cache (env : Env) : bool :=
  match db_load env STORAGE_KEY with
  | Fulfilled cached => cache_hit cached
  | Rejected _ => false
  end.

(** The same services, with another answer of the store to a load. *)
Definition with_db_load (answer : jsstring -> promise (option CharacterImages))
    (env : Env) : Env :=
  {| db_load := answer;
     db_save := db_save env;
     gemini_image := gemini_image env;
     gemini_judgment := gemini_judgment env;
     settle_order := settle_order env |}.

(** The record built from three generated images. *)
Definition generated (judgeImg catImg dogImg : jsstring) : CharacterImages :=
  {| judge := Some judgeImg;
     catDebater := Some catImg;
     dogDebater := Some dogImg |}.

(** The joined promise of the three generation calls. *)
Definition generation_join (env : Env) : promise (jsstring * jsstring * jsstring) :=
  Promise_all3 (settle_order env)
    (gemini_image env (CharacterPrompts JUDGE))
    (gemini_image env (CharacterPrompts CAT_DEBATER))
    (gemini_image env (CharacterPrompts DOG_DEBATER)).

(** Whether a trace holds the typing sound. *)
Definition played (t : list Event) : bool :=
  existsb (fun ev =>
             match ev with
             | EvPlaySound typing => true
             | _ => false
             end) t.

(** A sequence of keystrokes, given by the values of [Date.now()] at each:
    [handleTypingSound] runs once per keystroke. The log pairs each timestamp
    with whether the sound played on that keystroke. *)
Fixpoint typing_session (env : Env) (times : list Z) (s : AppState)
    : list (Z * bool) * AppState :=
  match times with
  | [] => ([], s)
  | now :: rest =>
      let r := run (handleTypingSound now) env s in
      let (log, s') := typing_session env rest (final_state r) in
      ((now, played (effects r)) :: log, s')
  end.

(** The timestamp of the last keystroke of a log on which the sound played,
    or [initial] when it played on none. *)
Definition last_fired (initial : Z) (log : list (Z * bool)) : Z :=
  fold_left (fun (last : Z) (entry : Z * bool) =>
               if snd entry then fst entry else last)
            log initial.

(** The trace of step 1, up to the answer of the store. *)
Definition load_events (s : AppState) : list Event :=
  [EvCall (LoadImagesFromDB STORAGE_KEY); EvAwait s].

(** The trace of the three generation calls and of the suspension on their
    join. *)
Definition generation_events (s : AppState) : list Event :=
  [EvCall (GenerateCharacterImage (CharacterPrompts JUDGE));
   EvCall (GenerateCharacterImage (CharacterPrompts CAT_DEBATER));
   EvCall (GenerateCharacterImage (CharacterPrompts DOG_DEBATER));
   EvAwait (with_loadingImages true s)].

Definition generation_failed : jsstring := utf16 "Failed to generate images:".

(** ** Sessions *)

Inductive Side := CatSide | DogSide.

(** The [onChange] handler of a text area: store the new text, then let the
    typing sound decide. [value] is [e.target.value], [now] is [Date.now()]. *)
Definition onChange (side : Side) (value : jsstring) (now : Z) : M unit := fn (
  match side with
  | CatSide => setCatArg value
  | DogSide => setDogArg value
  end ;;
  handleTypingSound now).

(** The [onNameChange] prop of the two debater avatars is the setter of the
    name itself. *)
Definition onNameChange (side : Side) (name : jsstring) : M unit :=
  match side with
  | CatSide => setCatName name
  | DogSide => setDogName name
  end.

(** What a user can do to the page. *)
Inductive Action :=
| Press (b : Click)
| Keystroke (side : Side) (value : jsstring) (now : Z)
| Rename (side : Side) (name : jsstring).

(** An action reaches its handler when its control is on screen and enabled:
    a disabled text area fires no change event. *)
Definition dispatch (a : Action) : M unit :=
  match a with
  | Press b => click b
  | Keystroke side value now =>
      s <- get ;;
      if textareaDisabled (render s) then ret tt else onChange side value now
  | Rename side name => onNameChange side name
  end.

(** Two tasks of the event loop, one after the other: the second runs
    whatever the completion of the first. *)
Definition then_ (first second : M unit) : M unit :=
  fun env w => second env (snd (first env w)).

(** A sequence of actions, each handled to completion before the next. *)
Fixpoint session (acts : list Action) : M unit :=
  match acts with
  | [] => ret tt
  | a :: rest => then_ (dispatch a) (session rest)
  end.

(** The life of the page: the mount effect, then the actions of the user. *)
Definition app (acts : list Action) : M unit := then_ loadImages (session acts).

(** The judgment calls of a trace, in order. *)
Definition judgment_calls (t : list Event) : list Call :=
  flat_map (fun ev =>
              match ev with
              | EvCall (GetJudgment a b c d h) => [GetJudgment a b c d h]
              | _ => []
              end) t.

(** The round number in the banner above the arguments, shown from the first
    appeal on: [history.length + 1]. *)
Definition appealBanner (s : AppState) : option Z :=
  if (0 <? Z.of_nat (List.length (history s)))%Z
  then Some (Z.of_nat (List.length (history s)) + 1)%Z
  else None.

(** The keys React is given for the entries of the history log. *)
Definition historyKeys (s : AppState) : list Z :=
  map CaseRound.roundNumber (history s).

(** A handler whose outcome does not depend on the trace it finds, and which
    only appends to it. *)
Definition trace_local {A} (m : M A) : Prop :=
  forall env s t,
    m env {| ui := s; trace := t |} =
      (fst (run m env s),
       {| ui := final_state (run m env s);
          trace := t ++ effects (run m env s) |}).

(** The store answers, the images are drawn, the save fails. *)
Definition fullDiskEnv : Env := {|
  db_load := fun _ => Fulfilled None;
  db_save := fun _ _ => Rejected (utf16 "QuotaExceededError");
  gemini_image := fun _ => Fulfilled (utf16 "data:image/png;base64,AAAA");
  gemini_judgment := fun _ _ _ _ _ => Fulfilled sampleVerdict;
  settle_order := [0; 1; 2]%nat
|}.

(** The round [handleAppeal] files from a state showing verdict [v]. *)
Definition newRound (s : AppState) (v : Verdict) : CaseRound.t :=
  {| CaseRound.roundNumber := Z.of_nat (List.length (history s)) + 1;
     CaseRound.catArg := catArg s;
     CaseRound.dogArg := dogArg s;
     CaseRound.verdict := v |}.

(** What the mount effect can leave in the two image cells: the loading flag
    [loading], and a new record when there is one. *)
Definition paint (o : option CharacterImages) (loading : bool)
    (s : AppState) : AppState :=
  with_loadingImages loading
    (match o with
     | Some c => with_images c s
     | None => s
     end).

(** Rounds numbered 1, 2, ... in order. *)
Definition numbered (h : list CaseRound.t) : Prop :=
  map CaseRound.roundNumber h = map Z.of_nat (seq 1 (List.length h)).

(** Both texts hold a character that is not white space. *)
Definition argued (a b : jsstring) : Prop := trim a <> [] /\ trim b <> [].

(** A run of keystrokes over the two text areas, each given by its area, the
    text it leaves in the area and the value of [Date.now()]: [onChange] runs
    once per keystroke. The log pairs each timestamp with whether the typing
    sound played. *)
Fixpoint onChange_session (env : Env) (keys : list (Side * jsstring * Z))
    (s : AppState) : list (Z * bool) * AppState :=
  match keys with
  | [] => ([], s)
  | (side, value, now) :: rest =>
      let r := run (onChange side value now) env s in
      let (log, s') := onChange_session env rest (final_state r) in
      ((now, played (effects r)) :: log, s')
  end.

Definition same_side (a b : Side) : bool :=
  match a, b with
  | CatSide, CatSide | DogSide, DogSide => true
  | _, _ => false
  end.

(** The text of the last keystroke of a run in one area, or [initial] when
    the run has none there. *)
Definition last_typed (side : Side) (keys : list (Side * jsstring * Z))
    (initial : jsstring) : jsstring :=
  fold_left (fun (text : jsstring) (key : Side * jsstring * Z) =>
               if same_side side (fst (fst key)) then snd (fst key) else text)
            keys initial.

(** The verdict on screen, if any, is on two arguments that pass the guard,
    and so was every verdict of the history. *)
Definition well_argued (s : AppState) : Prop :=
  Forall (fun r => argued (CaseRound.catArg r) (CaseRound.dogArg r)) (history s)
  /\ (forall v, verdict s = Some v -> argued (catArg s) (dogArg s)).

(** * Properties *)

(** ** Strings *)

Lemma trimStart_nil_iff (s : jsstring) :
  trimStart s = [] <-> blank s = true.
Proof.
  induction s as [|c rest IH]; simpl.
  - tauto.
  - destruct (isWhiteSpace c); simpl.
    + exact IH.
    + split; discriminate.
Qed.

Lemma trimStart_head (s : jsstring) (c : N) (rest : jsstring) :
  trimStart s = c :: rest -> isWhiteSpace c = false.
Proof.
  induction s as [|d tl IH]; simpl.
  - discriminate.
  - destruct (isWhiteSpace d) eqn:Hd.
    + exact IH.
    + intros H. injection H as -> _. exact Hd.
Qed.

Lemma blank_rev (s : jsstring) : blank (rev s) = blank s.
Proof.
  unfold blank. induction s as [|c rest IH]; simpl.
  - reflexivity.
  - rewrite forallb_app, IH. simpl. rewrite andb_true_r. apply andb_comm.
Qed.

Lemma trimStart_blank_nil (s : jsstring) :
  blank (trimStart s) = true -> trimStart s = [].
Proof.
  destruct (trimStart s) as [|c rest] eqn:E.
  - reflexivity.
  - simpl. rewrite (trimStart_head s E). discriminate.
Qed.

Lemma trim_nil_iff (s : jsstring) : trim s = [] <-> blank s = true.
Proof.
  unfold trim, trimEnd. split.
  - intros H.
    assert (H1 : trimStart (rev (trimStart s)) = []).
    { destruct (trimStart (rev (trimStart s))) as [|c tl]; [reflexivity|].
      simpl in H. destruct (rev tl); discriminate. }
    apply trimStart_nil_iff in H1. rewrite blank_rev in H1.
    apply trimStart_nil_iff. apply trimStart_blank_nil. exact H1.
  - intros H. apply trimStart_nil_iff in H. rewrite H. reflexivity.
Qed.

Lemma truthy_trim (s : jsstring) : truthy (trim s) = negb (blank s).
Proof.
  destruct (blank s) eqn:E.
  - apply trim_nil_iff in E. rewrite E. reflexivity.
  - destruct (trim s) eqn:T; [|reflexivity].
    apply trim_nil_iff in T. congruence.
Qed.

Lemma trim_guard (a b : jsstring) :
  blank a || blank b = false <-> trim a <> [] /\ trim b <> [].
Proof.
  rewrite orb_false_iff, !trim_nil_iff.
  destruct (blank a), (blank b); intuition congruence.
Qed.

(** ** Running the monad *)

Ltac js_unfold :=
  unfold run, final_state, effects, fn, bind, ret, return_, throw, get, modify,
    emit, ask, try_catch, try_finally, await, invoke,
    setImages, setLoadingImages, setCatName, setDogName, setCatArg, setDogArg,
    setVerdict, setIsJudging, setHistory, playSound, console_warn,
    console_error, alert, window_scrollTo_top in *.

Ltac js_simpl := repeat (progress (js_unfold; cbn [fst snd ui trace app])).

(** ** Appeal *)

(** C1. With a verdict on screen, [handleAppeal] appends to the history exactly
    one round, numbered (length of the history so far) + 1 and holding the
    current two arguments and the current verdict, and then clears the two
    arguments and the verdict; with no verdict it changes nothing at all and
    has no effect. *)
Theorem handleAppeal_archives_round (env : Env) (s : AppState) :
  let r := run handleAppeal env s in
  fst r = Normal tt
  /\ (forall v, verdict s = Some v ->
        history (final_state r) =
          history s ++
            [ {| CaseRound.roundNumber := Z.of_nat (List.length (history s)) + 1;
                 CaseRound.catArg := catArg s;
                 CaseRound.dogArg := dogArg s;
                 CaseRound.verdict := v |} ]
        /\ List.length (history (final_state r)) = S (List.length (history s))
        /\ catArg (final_state r) = []
        /\ dogArg (final_state r) = []
        /\ verdict (final_state r) = None)
  /\ (verdict s = None -> final_state r = s /\ effects r = []).
Proof.
  unfold handleAppeal. js_simpl.
  destruct (verdict s) as [v|] eqn:Hv; cbn.
  - split; [reflexivity|]. split; [|discriminate].
    intros v' Hv'. injection Hv' as <-.
    repeat split. rewrite length_app. cbn. lia.
  - split; [reflexivity|]. split; [discriminate|].
    intros _. split; reflexivity.
Qed.

(** C9. [handleAppeal] writes only the history, the verdict and the two
    arguments: the two display names, the images, the image-loading flag and
    the judging flag (and the typing timestamp) keep their values, whether or
    not there is a verdict. *)
Theorem handleAppeal_frame (env : Env) (s : AppState) :
  let s' := final_state (run handleAppeal env s) in
  catName s' = catName s
  /\ dogName s' = dogName s
  /\ images s' = images s
  /\ loadingImages s' = loadingImages s
  /\ isJudging s' = isJudging s
  /\ lastTypeTime s' = lastTypeTime s.
Proof.
  unfold handleAppeal. js_simpl.
  destruct (verdict s); cbn; repeat split.
Qed.

(** ** Accept *)

(** C3. The accept button is on screen exactly when there is a verdict, so a
    click on it without one does nothing; [handleAcceptVerdict] empties the
    history, whatever its length, and clears the two display names, the
    verdict and the two arguments. *)
Theorem handleAcceptVerdict_resets (env : Env) (s : AppState) :
  let s' := final_state (run handleAcceptVerdict env s) in
  (acceptButton (render s) = true <-> exists v, verdict s = Some v)
  /\ (verdict s = None ->
        run (click ClickAccept) env s = (Normal tt, {| ui := s; trace := [] |}))
  /\ (forall v, verdict s = Some v ->
        run (click ClickAccept) env s = run handleAcceptVerdict env s)
  /\ fst (run handleAcceptVerdict env s) = Normal tt
  /\ history s' = []
  /\ List.length (history s') = 0%nat
  /\ catName s' = []
  /\ dogName s' = []
  /\ verdict s' = None
  /\ catArg s' = []
  /\ dogArg s' = [].
Proof.
  unfold click, render, handleAcceptVerdict. js_simpl.
  destruct (verdict s) as [v|]; cbn.
  - repeat split; eauto; discriminate.
  - repeat split; try discriminate.
    intros [v Hv]. discriminate.
Qed.

(** ** Judgment *)

(** What [handleJudgeClick] does when one of the arguments is blank. *)
Lemma handleJudgeClick_blocked (env : Env) (s : AppState) :
  blank (catArg s) || blank (dogArg s) = true ->
  run handleJudgeClick env s = (Normal tt, {| ui := s; trace := [] |}).
Proof.
  intros H. unfold handleJudgeClick. js_simpl.
  rewrite !truthy_trim, !negb_involutive, H. reflexivity.
Qed.

(** What [handleJudgeClick] does when neither argument is blank. *)
Lemma handleJudgeClick_submitted (env : Env) (s : AppState) :
  blank (catArg s) || blank (dogArg s) = false ->
  run handleJudgeClick env s =
    match gemini_judgment env (catArg s) (dogArg s)
            (or_else (catName s) defaultCatName)
            (or_else (dogName s) defaultDogName) (history s) with
    | Fulfilled v =>
        (Normal tt,
         {| ui := with_isJudging false (with_verdict (Some v) (judging s));
            trace := [EvPlaySound gavel; EvCall (judgmentCall s);
                      EvAwait (judging s)] |})
    | Rejected e =>
        (Normal tt,
         {| ui := with_isJudging false (judging s);
            trace := [EvPlaySound gavel; EvCall (judgmentCall s);
                      EvAwait (judging s); EvConsoleError None e;
                      EvAlert judgeAsleep] |})
    end.
Proof.
  intros H. unfold handleJudgeClick, judgmentCall, judging. js_simpl.
  rewrite !truthy_trim, !negb_involutive, H. cbn.
  destruct (gemini_judgment env _ _ _ _ _); reflexivity.
Qed.

(** C5, as amended. The guard of [handleJudgeClick] is on the trimmed texts:
    when either argument trims to the empty string, that is when it is empty
    or consists of white space only, no judgment call is made and the state
    is unchanged (in particular when either is empty); when both hold a
    character that is not white space, the submission proceeds: the gavel
    sounds and the judgment call is made. *)
Theorem handleJudgeClick_guard (env : Env) (s : AppState) :
  let r := run handleJudgeClick env s in
  (trim (catArg s) = [] \/ trim (dogArg s) = [] ->
     r = (Normal tt, {| ui := s; trace := [] |}))
  /\ (catArg s = [] \/ dogArg s = [] ->
        r = (Normal tt, {| ui := s; trace := [] |}))
  /\ (trim (catArg s) <> [] -> trim (dogArg s) <> [] ->
        exists rest,
          effects r = EvPlaySound gavel :: EvCall (judgmentCall s) :: rest)
  /\ (forall text, trim text = [] <-> forallb isWhiteSpace text = true).
Proof.
  cbv zeta. split; [|split; [|split]].
  - intros H. apply handleJudgeClick_blocked.
    destruct H as [H|H]; apply trim_nil_iff in H; rewrite H;
      [reflexivity | apply orb_true_r].
  - intros H. apply handleJudgeClick_blocked.
    destruct H as [H|H]; rewrite H; cbn; [reflexivity | apply orb_true_r].
  - intros Hc Hd.
    rewrite (handleJudgeClick_submitted env s (proj2 (trim_guard _ _) (conj Hc Hd))).
    destruct (gemini_judgment env _ _ _ _ _); cbn; eauto.
  - exact trim_nil_iff.
Qed.

(** C5, as stated, fails: both arguments are non-empty (the judge button is
    enabled), yet the click makes no judgment call and changes nothing. *)
Lemma handleJudgeClick_guard_counterexample :
  catArg spacesDispute = [0x20; 0x20]%N
  /\ dogArg spacesDispute = utf16 "woof"
  /\ judgeButtonDisabled (render spacesDispute) = false
  /\ run handleJudgeClick happyEnv spacesDispute
     = (Normal tt, {| ui := spacesDispute; trace := [] |}).
Proof. repeat split. Qed.

(** C2, as amended. For two arguments that are both non-empty after trimming,
    [handleJudgeClick] sets the judging flag (and clears the verdict), calls
    [getJudgment] with the two arguments, the two effective names and the
    whole history, and ends in exactly one of two ways: the service answered
    and the verdict is its answer, with no alert; or the service failed, the
    verdict is absent and the alert is shown. Either way the judging flag ends
    false and the history and the two arguments are unchanged. *)
Theorem handleJudgeClick_outcomes (env : Env) (s : AppState) :
  trim (catArg s) <> [] ->
  trim (dogArg s) <> [] ->
  let r := run handleJudgeClick env s in
  let s' := final_state r in
  fst r = Normal tt
  /\ isJudging (judging s) = true
  /\ (exists rest,
        effects r = [EvPlaySound gavel; EvCall (judgmentCall s);
                     EvAwait (judging s)] ++ rest
        /\ ((exists v,
               gemini_judgment env (catArg s) (dogArg s)
                 (or_else (catName s) defaultCatName)
                 (or_else (dogName s) defaultDogName) (history s) = Fulfilled v
               /\ verdict s' = Some v /\ rest = [])
            \/ (exists e,
                  gemini_judgment env (catArg s) (dogArg s)
                    (or_else (catName s) defaultCatName)
                    (or_else (dogName s) defaultDogName) (history s) = Rejected e
                  /\ verdict s' = None
                  /\ rest = [EvConsoleError None e; EvAlert judgeAsleep])))
  /\ isJudging s' = false
  /\ history s' = history s
  /\ catArg s' = catArg s
  /\ dogArg s' = dogArg s.
Proof.
  intros Hc Hd. cbv zeta.
  rewrite (handleJudgeClick_submitted env s (proj2 (trim_guard _ _) (conj Hc Hd))).
  destruct (gemini_judgment env _ _ _ _ _) as [v|e]; cbn.
  - repeat split. exists []. split; [reflexivity|]. left. exists v. repeat split.
  - repeat split. eexists. split; [reflexivity|]. right. exists e. repeat split.
Qed.

(** The example of the specification: the service answers, and its verdict is
    on screen when the handler ends. *)
Lemma handleJudgeClick_outcomes_witness :
  verdict (final_state (run handleJudgeClick happyEnv boxDispute))
    = Some sampleVerdict
  /\ isJudging (final_state (run handleJudgeClick happyEnv boxDispute)) = false.
Proof.
  assert (Hc : trim (catArg boxDispute) <> []) by (vm_compute; discriminate).
  assert (Hd : trim (dogArg boxDispute) <> []) by (vm_compute; discriminate).
  pose proof (handleJudgeClick_outcomes happyEnv boxDispute Hc Hd) as H.
  cbv zeta in H.
  destruct H as (_ & _ & (rest & _ & Hout) & Hj & _).
  split; [|exact Hj].
  destruct Hout as [(v & Hv & Hs & _) | (e & He & _)].
  - rewrite Hs. cbn in Hv. injection Hv as <-. reflexivity.
  - cbn in He. discriminate.
Defined.

(** C2, as stated, fails: both arguments are non-empty, yet the click neither
    sets the judging flag nor calls [getJudgment]. *)
Lemma handleJudgeClick_outcomes_counterexample :
  catArg newlineDispute = utf16 "the box is mine"
  /\ dogArg newlineDispute = [0x0A%N]
  /\ effects (run handleJudgeClick happyEnv newlineDispute) = []
  /\ final_state (run handleJudgeClick happyEnv newlineDispute) = newlineDispute.
Proof. repeat split. Qed.

(** C10. When a judgment is submitted, the name passed to [getJudgment] for a
    side is its display name, or the fixed default when the display name is
    the empty string; the stored names are never changed by
    [handleJudgeClick]. *)
Theorem handleJudgeClick_default_names (env : Env) (s : AppState) :
  let r := run handleJudgeClick env s in
  let effective (name fallback : jsstring) :=
    match name with [] => fallback | _ :: _ => name end in
  (trim (catArg s) <> [] -> trim (dogArg s) <> [] ->
     exists rest,
       effects r =
         EvPlaySound gavel
         :: EvCall (GetJudgment (catArg s) (dogArg s)
                      (effective (catName s) [0x55B5; 0x55B5; 0x8FA9; 0x624B]%N)
                      (effective (dogName s) [0x6C6A; 0x6C6A; 0x8FA9; 0x624B]%N)
                      (history s))
         :: EvAwait (judging s) :: rest
       /\ forall c, In (EvCall c) rest -> False)
  /\ catName (final_state r) = catName s
  /\ dogName (final_state r) = dogName s.
Proof.
  cbv zeta.
  destruct (blank (catArg s) || blank (dogArg s)) eqn:H.
  - rewrite (handleJudgeClick_blocked env s H). cbn.
    split; [|split; reflexivity]. intros Hc Hd.
    rewrite (proj2 (trim_guard _ _) (conj Hc Hd)) in H. discriminate.
  - rewrite (handleJudgeClick_submitted env s H).
    unfold judgmentCall, or_else, defaultCatName, defaultDogName.
    destruct (gemini_judgment env _ _ _ _ _) as [v|e]; cbn.
    + split; [|split; reflexivity]. intros _ _. exists [].
      destruct (catName s), (dogName s); cbn; split; try reflexivity;
        intros c [].
    + split; [|split; reflexivity]. intros _ _. eexists.
      destruct (catName s), (dogName s); cbn; split; try reflexivity;
        intros c [Hc|[Hc|[]]]; discriminate.
Qed.

(** ** Startup *)

Arguments CharacterPrompts : simpl never.
Arguments STORAGE_KEY : simpl never.
Arguments utf16 : simpl never.

Lemma present_truthy (img : option jsstring) :
  truthy_field img = true <-> present img.
Proof.
  unfold present. destruct img as [[|c rest]|]; cbn; split.
  - discriminate.
  - intros (p & Hp & Hn). injection Hp as <-. contradiction.
  - intros _. eexists. split; [reflexivity | discriminate].
  - reflexivity.
  - discriminate.
  - intros (p & Hp & _). discriminate.
Qed.

Lemma cache_hit_fully_populated (c : CharacterImages) :
  cache_hit (Some c) = true <-> fully_populated c.
Proof.
  unfold fully_populated. cbn. rewrite !andb_true_iff, !present_truthy. tauto.
Qed.

(** The three prompts differ: already at their 34th character. *)
Lemma CharacterPrompts_NoDup :
  NoDup (map CharacterPrompts [JUDGE; CAT_DEBATER; DOG_DEBATER]).
Proof.
  assert (D : forall a b : CharacterType,
             nth 33 (CharacterPrompts a) 0%N <> nth 33 (CharacterPrompts b) 0%N ->
             CharacterPrompts a <> CharacterPrompts b)
    by (intros a b H E; apply H; rewrite E; reflexivity).
  cbn [map]. repeat constructor; cbn [In]; intros H;
    repeat (destruct H as [H|H]; [revert H; apply D; vm_compute; discriminate|]);
    exact H.
Qed.

Lemma first_rejection_In (rs : list (option exn)) (order : list nat) (e : exn) :
  first_rejection rs order = Some e -> In (Some e) rs.
Proof.
  induction order as [|i rest IH]; cbn.
  - discriminate.
  - destruct (nth i rs None) as [e'|] eqn:E.
    + intros H. injection H as <-.
      destruct (Nat.lt_ge_cases i (List.length rs)) as [Hlt|Hge].
      * rewrite <- E. apply nth_In. exact Hlt.
      * rewrite nth_overflow in E by exact Hge. discriminate.
    + exact IH.
Qed.

Lemma first_rejection_app (rs : list (option exn)) (o1 o2 : list nat) :
  first_rejection rs (o1 ++ o2) =
    match first_rejection rs o1 with
    | Some e => Some e
    | None => first_rejection rs o2
    end.
Proof.
  induction o1 as [|i rest IH]; cbn.
  - reflexivity.
  - destruct (nth i rs None); [reflexivity | exact IH].
Qed.

(** [Promise.all] is fulfilled exactly when its three promises are, and with
    their three values. *)
Lemma Promise_all3_fulfilled {A B C} (order : list nat)
    (p1 : promise A) (p2 : promise B) (p3 : promise C) (a : A) (b : B) (c : C) :
  Promise_all3 order p1 p2 p3 = Fulfilled (a, b, c) <->
  p1 = Fulfilled a /\ p2 = Fulfilled b /\ p3 = Fulfilled c.
Proof.
  unfold Promise_all3. split.
  - destruct p1, p2, p3; try (destruct (first_rejection _ _); discriminate).
    intros H. injection H as -> -> ->. auto.
  - intros (-> & -> & ->). reflexivity.
Qed.

(** [Promise.all] is rejected as soon as one of its promises is, with the
    reason of one of them. *)
Lemma Promise_all3_rejected {A B C} (order : list nat)
    (p1 : promise A) (p2 : promise B) (p3 : promise C) :
  (exists e, p1 = Rejected e) \/ (exists e, p2 = Rejected e)
  \/ (exists e, p3 = Rejected e) ->
  exists e, Promise_all3 order p1 p2 p3 = Rejected e
            /\ (p1 = Rejected e \/ p2 = Rejected e \/ p3 = Rejected e).
Proof.
  intros H. unfold Promise_all3.
  assert (R : exists e,
             first_rejection [rejection p1; rejection p2; rejection p3]
               (order ++ [0; 1; 2])%nat = Some e).
  { rewrite first_rejection_app.
    destruct (first_rejection _ order) as [e|]; [eauto|].
    destruct p1 as [a|e1]; [|cbn; eauto].
    destruct p2 as [b|e2]; [|cbn; eauto].
    destruct p3 as [c|e3]; [|cbn; eauto].
    destruct H as [[e H]|[[e H]|[e H]]]; discriminate. }
  destruct R as [e R]. rewrite R. exists e.
  apply first_rejection_In in R.
  assert (Hin : p1 = Rejected e \/ p2 = Rejected e \/ p3 = Rejected e).
  { cbn in R. destruct R as [R|[R|[R|[]]]].
    - left. destruct p1; cbn in R; congruence.
    - right; left. destruct p2; cbn in R; congruence.
    - right; right. destruct p3; cbn in R; congruence. }
  split; [|exact Hin].
  destruct p1, p2, p3; try reflexivity.
  destruct Hin as [Hin|[Hin|Hin]]; discriminate.
Qed.

Lemma loadFromCache_hit (env : Env) (s : AppState) (c : CharacterImages) :
  db_load env STORAGE_KEY = Fulfilled (Some c) ->
  cache_hit (Some c) = true ->
  loadFromCache env {| ui := s; trace := [] |} =
    (Returned,
     {| ui := with_loadingImages false (with_images c s);
        trace := load_events s |}).
Proof.
  intros Hl Hc. unfold loadFromCache, loadImagesFromDB. js_simpl.
  rewrite Hl, Hc. reflexivity.
Qed.

Lemma loadFromCache_miss (env : Env) (s : AppState)
    (cached : option CharacterImages) :
  db_load env STORAGE_KEY = Fulfilled cached ->
  cache_hit cached = false ->
  loadFromCache env {| ui := s; trace := [] |} =
    (Normal tt, {| ui := s; trace := load_events s |}).
Proof.
  intros Hl Hc. unfold loadFromCache, loadImagesFromDB. js_simpl.
  rewrite Hl. destruct cached as [c|]; [rewrite Hc|]; reflexivity.
Qed.

Lemma loadFromCache_error (env : Env) (s : AppState) (e : exn) :
  db_load env STORAGE_KEY = Rejected e ->
  loadFromCache env {| ui := s; trace := [] |} =
    (Normal tt,
     {| ui := s;
        trace := load_events s
                 ++ [EvConsoleWarn (utf16 "Failed to load images from DB") e] |}).
Proof.
  intros Hl. unfold loadFromCache, loadImagesFromDB. js_simpl.
  rewrite Hl. reflexivity.
Qed.

Lemma generateImages_run (env : Env) (s : AppState) (before : list Event) :
  generateImages env {| ui := s; trace := before |} =
    match generation_join env with
    | Fulfilled (judgeImg, catImg, dogImg) =>
        let newImages := generated judgeImg catImg dogImg in
        let shown := with_images newImages (with_loadingImages true s) in
        (Normal tt,
         {| ui := with_loadingImages false shown;
            trace := before ++ generation_events s
                     ++ [EvCall (SaveImagesToDB STORAGE_KEY newImages);
                         EvAwait shown]
                     ++ match db_save env STORAGE_KEY newImages with
                        | Fulfilled _ => []
                        | Rejected e =>
                            [EvConsoleError (Some generation_failed) e]
                        end |})
    | Rejected e =>
        (Normal tt,
         {| ui := with_loadingImages false (with_loadingImages true s);
            trace := before ++ generation_events s
                     ++ [EvConsoleError (Some generation_failed) e] |})
    end.
Proof.
  unfold generateImages, generation_join, generateCharacterImage,
    saveImagesToDB, generation_events, generation_failed, generated.
  js_simpl.
  destruct (Promise_all3 _ _ _ _) as [[[j c] d]|e]; cbn.
  - destruct (db_save env _ _) as [[]|e]; cbn; rewrite <- !app_assoc;
      reflexivity.
  - rewrite <- !app_assoc. reflexivity.
Qed.

(** [loadImages] on a cache hit. *)
Lemma loadImages_hit (env : Env) (s : AppState) (c : CharacterImages) :
  db_load env STORAGE_KEY = Fulfilled (Some c) ->
  cache_hit (Some c) = true ->
  run loadImages env s =
    (Normal tt,
     {| ui := with_loadingImages false (with_images c s);
        trace := load_events s |}).
Proof.
  intros Hl Hc. unfold run, loadImages, fn, bind.
  rewrite (loadFromCache_hit env s Hl Hc). reflexivity.
Qed.

(** [loadImages] when the store does not serve the images: after step 1,
    which changes no state, the function is its generation steps. *)
Lemma loadImages_generates (env : Env) (s : AppState) :
  served_from_cache env = false ->
  run loadImages env s =
    generateImages env
      {| ui := s;
         trace := load_events s
                  ++ match db_load env STORAGE_KEY with
                     | Fulfilled _ => []
                     | Rejected e =>
                         [EvConsoleWarn (utf16 "Failed to load images from DB") e]
                     end |}.
Proof.
  unfold served_from_cache. intros H. unfold run, loadImages, fn, bind.
  destruct (db_load env STORAGE_KEY) as [cached|e] eqn:Hl.
  - rewrite (loadFromCache_miss env s Hl H).
    rewrite generateImages_run, app_nil_r.
    rewrite generateImages_run. destruct (generation_join env) as [[[j c] d]|e];
      reflexivity.
  - rewrite (loadFromCache_error env s Hl).
    rewrite !generateImages_run. destruct (generation_join env) as [[[j c] d]|e'];
      reflexivity.
Qed.

Lemma generation_calls_app (t1 t2 : list Event) :
  generation_calls (t1 ++ t2) = generation_calls t1 ++ generation_calls t2.
Proof. apply flat_map_app. Qed.

Lemma saves_app (t1 t2 : list Event) :
  saves (t1 ++ t2) = saves t1 ++ saves t2.
Proof. apply flat_map_app. Qed.

(** C4. The number of generation calls at startup depends on the answer of
    the store alone. A record with all three images present (each a non-empty
    payload) becomes the image state and no generation call is made. A record
    that lacks an image, or no record, leads to exactly three generation
    calls, one with the prompt of each character type (the three prompts are
    distinct); when the three succeed, the record made of the three results
    becomes the image state and is written to the store in one save. *)
Theorem loadImages_generation_calls (env : Env) (s : AppState) :
  let r := run loadImages env s in
  (forall c,
      db_load env STORAGE_KEY = Fulfilled (Some c) ->
      fully_populated c ->
      generation_calls (effects r) = []
      /\ images (final_state r) = c
      /\ loadingImages (final_state r) = false)
  /\ (forall cached,
        db_load env STORAGE_KEY = Fulfilled cached ->
        (cached = None \/ exists c, cached = Some c /\ ~ fully_populated c) ->
        generation_calls (effects r) =
          [CharacterPrompts JUDGE; CharacterPrompts CAT_DEBATER;
           CharacterPrompts DOG_DEBATER]
        /\ forall judgeImg catImg dogImg,
             gemini_image env (CharacterPrompts JUDGE) = Fulfilled judgeImg ->
             gemini_image env (CharacterPrompts CAT_DEBATER) = Fulfilled catImg ->
             gemini_image env (CharacterPrompts DOG_DEBATER) = Fulfilled dogImg ->
             images (final_state r) = generated judgeImg catImg dogImg
             /\ saves (effects r) =
                  [(STORAGE_KEY, generated judgeImg catImg dogImg)])
  /\ NoDup (map CharacterPrompts [JUDGE; CAT_DEBATER; DOG_DEBATER]).
Proof.
  cbv zeta. split; [|split; [|apply CharacterPrompts_NoDup]].
  - intros c Hl Hc. apply cache_hit_fully_populated in Hc.
    rewrite (loadImages_hit env s Hl Hc). repeat split.
  - intros cached Hl Hmiss.
    assert (Hc : cache_hit cached = false).
    { destruct Hmiss as [->|(c & -> & Hn)]; [reflexivity|].
      destruct (cache_hit (Some c)) eqn:E; [|reflexivity].
      apply cache_hit_fully_populated in E. contradiction. }
    assert (Hs : served_from_cache env = false)
      by (unfold served_from_cache; rewrite Hl; exact Hc).
    rewrite (loadImages_generates env s Hs), Hl, generateImages_run.
    split.
    + destruct (generation_join env) as [[[j c] d]|e]; unfold effects; cbn;
        rewrite ?generation_calls_app; cbn;
        [destruct (db_save env _ _)|]; reflexivity.
    + intros j c d Hj Hcat Hd.
      assert (J : generation_join env = Fulfilled (j, c, d))
        by (apply Promise_all3_fulfilled; auto).
      rewrite J. unfold effects, final_state; cbn. split; [reflexivity|].
      destruct (db_save env _ _); reflexivity.
Qed.

(** C6. An error of the store during the load does not abort [loadImages]:
    it is logged as a warning, and from there the function runs exactly as on
    a load that found no record, with the same service calls in the same
    order and the same final state. *)
Theorem loadImages_load_error_is_miss (env : Env) (s : AppState) (e : exn) :
  db_load env STORAGE_KEY = Rejected e ->
  let r := run loadImages env s in
  let r' := run loadImages (with_db_load (fun _ => Fulfilled None) env) s in
  fst r = Normal tt
  /\ fst r' = Normal tt
  /\ final_state r = final_state r'
  /\ (exists rest,
        effects r =
          load_events s
          ++ EvConsoleWarn (utf16 "Failed to load images from DB") e :: rest
        /\ effects r' = load_events s ++ rest)
  /\ generation_calls (effects r) =
       [CharacterPrompts JUDGE; CharacterPrompts CAT_DEBATER;
        CharacterPrompts DOG_DEBATER].
Proof.
  intros Hl. cbv zeta.
  assert (Hs : served_from_cache env = false)
    by (unfold served_from_cache; rewrite Hl; reflexivity).
  assert (Hs' : served_from_cache (with_db_load (fun _ => Fulfilled None) env)
                = false) by reflexivity.
  rewrite (loadImages_generates env s Hs), (loadImages_generates _ s Hs'), Hl.
  rewrite !generateImages_run.
  change (generation_join (with_db_load (fun _ => Fulfilled None) env))
    with (generation_join env).
  cbn [db_load db_save with_db_load].
  destruct (generation_join env) as [[[j c] d]|e']; unfold effects, final_state;
    cbn [fst snd ui trace].
  - do 3 (split; [reflexivity|]). split.
    + eexists. split; [rewrite <- app_assoc; reflexivity|].
      rewrite app_nil_r. reflexivity.
    + rewrite !generation_calls_app. cbn. destruct (db_save env _ _); reflexivity.
  - do 3 (split; [reflexivity|]). split.
    + eexists. split; [rewrite <- app_assoc; reflexivity|].
      rewrite app_nil_r. reflexivity.
    + rewrite !generation_calls_app. reflexivity.
Qed.

(** The store throws [InvalidStateError] on a fresh component. *)
Lemma loadImages_load_error_is_miss_witness :
  final_state (run loadImages brokenDbEnv initialState)
  = final_state
      (run loadImages (with_db_load (fun _ => Fulfilled None) brokenDbEnv)
         initialState).
Proof.
  exact (proj1 (proj2 (proj2
    (loadImages_load_error_is_miss brokenDbEnv initialState eq_refl)))).
Defined.

(** C7. When the images are not served from the store and one of the three
    generation calls fails (whichever, and however many), [loadImages] ends
    normally with the image state as it was, so with the three images absent
    at startup, with nothing written to the store and with the loading flag
    cleared: the final state does not depend on which calls succeeded. *)
Theorem loadImages_all_or_nothing (env : Env) (s : AppState) :
  served_from_cache env = false ->
  (exists t e, gemini_image env (CharacterPrompts t) = Rejected e) ->
  let r := run loadImages env s in
  fst r = Normal tt
  /\ images (final_state r) = images s
  /\ (images s = images initialState ->
        judge (images (final_state r)) = None
        /\ catDebater (images (final_state r)) = None
        /\ dogDebater (images (final_state r)) = None)
  /\ saves (effects r) = []
  /\ loadingImages (final_state r) = false
  /\ final_state r = with_loadingImages false s.
Proof.
  intros Hs (t & e & Ht). cbv zeta.
  rewrite (loadImages_generates env s Hs), generateImages_run.
  destruct (@Promise_all3_rejected _ _ _ (settle_order env)
              (gemini_image env (CharacterPrompts JUDGE))
              (gemini_image env (CharacterPrompts CAT_DEBATER))
              (gemini_image env (CharacterPrompts DOG_DEBATER)))
    as (e' & He' & _).
  { destruct t; eauto. }
  unfold generation_join. rewrite He'.
  unfold final_state, effects; cbn [fst snd ui trace].
  split; [reflexivity|]. split; [reflexivity|]. split.
  { intros Hi. cbn [images with_loadingImages]. rewrite Hi. repeat split. }
  split.
  { rewrite !saves_app. destruct (db_load env STORAGE_KEY); reflexivity. }
  split; reflexivity.
Qed.

(** The cat and the judge are drawn, the dog is refused: no image is kept. *)
Lemma loadImages_all_or_nothing_witness :
  images (final_state (run loadImages dogFailsEnv initialState))
  = {| judge := None; catDebater := None; dogDebater := None |}
  /\ loadingImages (final_state (run loadImages dogFailsEnv initialState)) = false.
Proof.
  assert (F : exists t e,
             gemini_image dogFailsEnv (CharacterPrompts t) = Rejected e).
  { exists DOG_DEBATER, (utf16 "quota exceeded"). vm_compute. reflexivity. }
  pose proof (loadImages_all_or_nothing dogFailsEnv initialState eq_refl F) as H.
  cbv zeta in H. destruct H as (_ & Hi & _ & _ & Hl & _).
  split; [exact Hi | exact Hl].
Defined.

(** ** Typing sound *)

Lemma handleTypingSound_run (env : Env) (s : AppState) (now : Z) :
  run (handleTypingSound now) env s =
    if (now - lastTypeTime s >? 100)%Z
    then (Normal tt,
          {| ui := with_lastTypeTime now s; trace := [EvPlaySound typing] |})
    else (Normal tt, {| ui := s; trace := [] |}).
Proof.
  unfold handleTypingSound. js_simpl.
  destruct (now - lastTypeTime s >? 100)%Z; reflexivity.
Qed.

(** One keystroke: the sound plays exactly when [now] is more than 100 past
    the stored timestamp, and the stored timestamp moves to [now] exactly
    then. *)
Lemma typing_step (env : Env) (s : AppState) (now : Z) :
  let r := run (handleTypingSound now) env s in
  played (effects r) = (now - lastTypeTime s >? 100)%Z
  /\ lastTypeTime (final_state r) =
       (if played (effects r) then now else lastTypeTime s).
Proof.
  cbv zeta. rewrite handleTypingSound_run.
  destruct (now - lastTypeTime s >? 100)%Z; split; reflexivity.
Qed.

Lemma typing_session_cons (env : Env) (now : Z) (rest : list Z) (s : AppState) :
  typing_session env (now :: rest) s =
    let r := run (handleTypingSound now) env s in
    ((now, played (effects r)) :: fst (typing_session env rest (final_state r)),
     snd (typing_session env rest (final_state r))).
Proof.
  cbn [typing_session]. cbv zeta.
  destruct (typing_session env rest _); reflexivity.
Qed.

Lemma last_fired_cons (initial now : Z) (p : bool) (log : list (Z * bool)) :
  last_fired initial ((now, p) :: log) =
    last_fired (if p then now else initial) log.
Proof. reflexivity. Qed.

(** The stored timestamp after a session is the last-fired timestamp of its
    log, and each entry of the log records the test against the last-fired
    timestamp of the entries before it. *)
Lemma typing_session_log (env : Env) (times : list Z) :
  forall s : AppState,
    map fst (fst (typing_session env times s)) = times
    /\ lastTypeTime (snd (typing_session env times s)) =
         last_fired (lastTypeTime s) (fst (typing_session env times s))
    /\ forall i now p,
         nth_error (fst (typing_session env times s)) i = Some (now, p) ->
         p = (now - last_fired (lastTypeTime s)
                      (firstn i (fst (typing_session env times s))) >? 100)%Z.
Proof.
  induction times as [|t rest IH]; intros s.
  - cbn. repeat split. intros [|i] now p; discriminate.
  - rewrite typing_session_cons. cbv zeta. cbn [fst snd map].
    destruct (typing_step env s t) as [Hp Hl].
    destruct (IH (final_state (run (handleTypingSound t) env s)))
      as (Hm & Hs & Hn).
    split; [rewrite Hm; reflexivity|]. split.
    + rewrite last_fired_cons, Hs, Hl. reflexivity.
    + intros [|i] now p; cbn [nth_error firstn].
      * intros H. injection H as <- <-. exact Hp.
      * intros H. rewrite last_fired_cons, <- Hl. apply Hn. exact H.
Qed.

Lemma typing_session_firstn (env : Env) (times : list Z) :
  forall (s : AppState) (i : nat),
    fst (typing_session env (firstn i times) s) =
      firstn i (fst (typing_session env times s)).
Proof.
  induction times as [|t rest IH]; intros s [|i]; try reflexivity.
  cbn [firstn]. rewrite !typing_session_cons. cbv zeta. cbn [fst firstn].
  rewrite IH. reflexivity.
Qed.

(** Every play of a session is more than 100 after the timestamp stored at
    its start, and any two plays are more than 100 apart. *)
Lemma typing_session_spaced (env : Env) (times : list Z) :
  forall s : AppState,
    (forall i t,
        nth_error (fst (typing_session env times s)) i = Some (t, true) ->
        (t - lastTypeTime s > 100)%Z)
    /\ (forall i j ti tj,
          (i < j)%nat ->
          nth_error (fst (typing_session env times s)) i = Some (ti, true) ->
          nth_error (fst (typing_session env times s)) j = Some (tj, true) ->
          (tj - ti > 100)%Z).
Proof.
  induction times as [|t rest IH]; intros s.
  - cbn. split; [intros [|i] t | intros [|i] j ti tj _]; discriminate.
  - rewrite typing_session_cons. cbv zeta. cbn [fst].
    destruct (typing_step env s t) as [Hp Hl].
    destruct (IH (final_state (run (handleTypingSound t) env s)))
      as (Hfirst & Hpair).
    assert (Hstep : played (effects (run (handleTypingSound t) env s)) = true ->
                    (t - lastTypeTime s > 100)%Z).
    { rewrite Hp. intros H. apply Z.gtb_lt in H. lia. }
    assert (Hmono : (lastTypeTime s
                     <= lastTypeTime
                          (final_state (run (handleTypingSound t) env s)))%Z).
    { rewrite Hl.
      destruct (played (effects (run (handleTypingSound t) env s)));
        [specialize (Hstep eq_refl)|]; lia. }
    split.
    + intros [|i] t'; cbn [nth_error].
      * intros H. injection H as <- H. apply Hstep. exact H.
      * intros H. specialize (Hfirst i t' H). lia.
    + intros [|i] [|j] ti tj Hij; cbn [nth_error]; try lia.
      * intros H Hj. injection H as <- H.
        specialize (Hfirst j tj Hj). rewrite Hl, H in Hfirst. exact Hfirst.
      * apply Hpair. lia.
Qed.

(** C8. For any sequence of keystrokes with their timestamps, the typing
    sound plays on a keystroke exactly when its timestamp exceeds by more
    than 100 the last-fired timestamp (that of the last keystroke before it
    on which the sound played; the value the timestamp cell held at the
    start, 0 when the component mounts, if there was none); after any number
    of keystrokes the cell holds the last-fired timestamp, so it is updated
    exactly when the sound plays; and any two keystrokes on which the sound
    plays are more than 100 apart. *)
Theorem handleTypingSound_throttle (env : Env) (times : list Z) (s : AppState) :
  let log := fst (typing_session env times s) in
  map fst log = times
  /\ (forall i now p,
        nth_error log i = Some (now, p) ->
        (p = true <->
         (now - last_fired (lastTypeTime s) (firstn i log) > 100)%Z))
  /\ (forall i,
        lastTypeTime (snd (typing_session env (firstn i times) s)) =
          last_fired (lastTypeTime s) (firstn i log))
  /\ (forall i j ti tj,
        (i < j)%nat ->
        nth_error log i = Some (ti, true) ->
        nth_error log j = Some (tj, true) ->
        (tj - ti > 100)%Z).
Proof.
  cbv zeta.
  destruct (typing_session_log env times s) as (Hm & _ & Hn).
  split; [exact Hm|]. split; [|split].
  - intros i now p H. rewrite (Hn i now p H).
    rewrite Z.gtb_ltb, Z.ltb_lt. lia.
  - intros i.
    destruct (typing_session_log env (firstn i times) s) as (_ & Hs & _).
    rewrite Hs, typing_session_firstn. reflexivity.
  - apply typing_session_spaced.
Qed.

(** A burst of keystrokes at 1000, 1050, 1100, 1101 and 1300 ms on a fresh
    component: the sound plays on the first, the fourth and the fifth. *)
Example handleTypingSound_burst :
  typing_session happyEnv [1000; 1050; 1100; 1101; 1300]%Z initialState =
    ([(1000, true); (1050, false); (1100, false); (1101, true); (1300, true)]%Z,
     with_lastTypeTime 1300 initialState).
Proof. reflexivity. Qed.

(** ** The example of the specification *)

(** First round, no name typed: the judgment call carries the two arguments,
    the two default names and an empty history. *)
Example boxDispute_judgment :
  run handleJudgeClick happyEnv boxDispute =
    (Normal tt,
     {| ui := boxVerdict;
        trace :=
          [EvPlaySound gavel;
           EvCall (GetJudgment (utf16 "the box is mine")
                     (utf16 "I share everything")
                     defaultCatName defaultDogName []);
           EvAwait (judging boxDispute)] |}).
Proof. reflexivity. Qed.

(** Appealing that verdict files round 1. *)
Example boxVerdict_appeal :
  history (final_state (run handleAppeal happyEnv boxVerdict)) =
    [ {| CaseRound.roundNumber := 1;
         CaseRound.catArg := utf16 "the box is mine";
         CaseRound.dogArg := utf16 "I share everything";
         CaseRound.verdict := sampleVerdict |} ].
Proof. reflexivity. Qed.

(** Accepting it instead goes back to the initial session, images kept. *)
Example boxVerdict_accept :
  final_state (run (click ClickAccept) happyEnv boxVerdict) =
    with_loadingImages false (with_images sampleImages initialState).
Proof. reflexivity. Qed.

(** With a full record in the store, the image service (which would fail) is
    never called. *)
Example cachedEnv_startup :
  run loadImages cachedEnv initialState =
    (Normal tt,
     {| ui := with_loadingImages false (with_images sampleImages initialState);
        trace := load_events initialState |}).
Proof. reflexivity. Qed.

(** With an empty store, three images are generated and saved together. *)
Example happyEnv_startup :
  generation_calls (effects (run loadImages happyEnv initialState)) =
    map CharacterPrompts [JUDGE; CAT_DEBATER; DOG_DEBATER]
  /\ saves (effects (run loadImages happyEnv initialState)) =
       [(STORAGE_KEY,
         generated (utf16 "data:image/png;base64, orange t")
                   (utf16 "data:image/png;base64, British ")
                   (utf16 "data:image/png;base64, Corgi do"))].
Proof. split; vm_compute; reflexivity. Qed.

(** * Beyond single handlers *)

(** ** Handlers and the trace *)

Create HintDb trace_local.

Lemma trace_local_ret {A} (a : A) : trace_local (ret a).
Proof. intros env s t. cbn. rewrite app_nil_r. reflexivity. Qed.

Lemma trace_local_return {A} : trace_local (@return_ A).
Proof. intros env s t. cbn. rewrite app_nil_r. reflexivity. Qed.

Lemma trace_local_throw {A} (e : exn) : trace_local (@throw A e).
Proof. intros env s t. cbn. rewrite app_nil_r. reflexivity. Qed.

Lemma trace_local_get : trace_local get.
Proof. intros env s t. cbn. rewrite app_nil_r. reflexivity. Qed.

Lemma trace_local_ask : trace_local ask.
Proof. intros env s t. cbn. rewrite app_nil_r. reflexivity. Qed.

Lemma trace_local_modify (f : AppState -> AppState) : trace_local (modify f).
Proof. intros env s t. cbn. rewrite app_nil_r. reflexivity. Qed.

Lemma trace_local_emit (ev : Event) : trace_local (emit ev).
Proof. intros env s t. reflexivity. Qed.

Lemma trace_local_bind {A B} (m : M A) (k : A -> M B) :
  trace_local m -> (forall a, trace_local (k a)) -> trace_local (bind m k).
Proof.
  intros Hm Hk env s t. unfold trace_local, bind, run, final_state, effects in *.
  rewrite (Hm env s t).
  destruct (m env {| ui := s; trace := [] |}) as [[a| |e] [s1 t1]]; cbn.
  - rewrite (Hk a env s1 (t ++ t1)), (Hk a env s1 t1). cbn.
    rewrite app_assoc. reflexivity.
  - reflexivity.
  - reflexivity.
Qed.

Lemma trace_local_try_catch {A} (body : M A) (handler : exn -> M A) :
  trace_local body -> (forall e, trace_local (handler e)) ->
  trace_local (try_catch body handler).
Proof.
  intros Hb Hh env s t. unfold trace_local, try_catch, run, final_state, effects in *.
  rewrite (Hb env s t).
  destruct (body env {| ui := s; trace := [] |}) as [[a| |e] [s1 t1]]; cbn.
  - reflexivity.
  - reflexivity.
  - rewrite (Hh e env s1 (t ++ t1)), (Hh e env s1 t1). cbn.
    rewrite app_assoc. reflexivity.
Qed.

Lemma trace_local_try_finally {A} (body : M A) (final : M unit) :
  trace_local body -> trace_local final ->
  trace_local (try_finally body final).
Proof.
  intros Hb Hf env s t. unfold trace_local, try_finally, run, final_state, effects in *.
  rewrite (Hb env s t).
  destruct (body env {| ui := s; trace := [] |}) as [c [s1 t1]]; cbn.
  rewrite (Hf env s1 (t ++ t1)), (Hf env s1 t1).
  destruct (final env {| ui := s1; trace := [] |}) as [[[]| |e] [s2 t2]]; cbn;
    rewrite app_assoc; reflexivity.
Qed.

Lemma trace_local_fn (body : M unit) : trace_local body -> trace_local (fn body).
Proof.
  intros Hb env s t. unfold trace_local, fn, run, final_state, effects in *.
  rewrite (Hb env s t).
  destruct (body env {| ui := s; trace := [] |}) as [[[]| |e] [s1 t1]];
    reflexivity.
Qed.

Lemma trace_local_then (first second : M unit) :
  trace_local first -> trace_local second -> trace_local (then_ first second).
Proof.
  intros H1 H2 env s t. unfold trace_local, then_, run, final_state, effects in *.
  rewrite (H1 env s t).
  destruct (first env {| ui := s; trace := [] |}) as [c [s1 t1]]; cbn.
  rewrite (H2 env s1 (t ++ t1)), (H2 env s1 t1). cbn.
  rewrite app_assoc. reflexivity.
Qed.

#[local] Hint Resolve trace_local_ret trace_local_return trace_local_throw
  trace_local_get trace_local_ask trace_local_modify trace_local_emit
  trace_local_bind trace_local_try_catch trace_local_try_finally
  trace_local_fn trace_local_then : trace_local.

(** The primitives of the component are single state updates or single
    events. *)
#[local] Hint Extern 2 (trace_local _) =>
  progress unfold setImages, setLoadingImages, setCatName, setDogName,
    setCatArg, setDogArg, setVerdict, setIsJudging, setHistory, playSound,
    console_warn, console_error, alert, window_scrollTo_top : trace_local.

(** Locality of a handler, by its syntax. *)
Ltac trace_local_tac :=
  repeat first
    [ progress intros
    | solve [auto with trace_local]
    | apply trace_local_bind
    | apply trace_local_try_catch
    | apply trace_local_try_finally
    | apply trace_local_fn
    | apply trace_local_then
    | match goal with
      | |- trace_local (match ?x with _ => _ end) => destruct x
      end ].

Lemma trace_local_await {A} (p : promise A) : trace_local (await p).
Proof. unfold await. trace_local_tac. Qed.

Lemma trace_local_invoke {A} (c : Call) (answer : Env -> promise A) :
  trace_local (invoke c answer).
Proof. unfold invoke. trace_local_tac. Qed.

#[local] Hint Resolve trace_local_await trace_local_invoke : trace_local.

Lemma trace_local_loadImages : trace_local loadImages.
Proof.
  unfold loadImages, loadFromCache, generateImages, loadImagesFromDB,
    generateCharacterImage, saveImagesToDB.
  trace_local_tac.
Qed.

Lemma trace_local_handleTypingSound (now : Z) :
  trace_local (handleTypingSound now).
Proof. unfold handleTypingSound. trace_local_tac. Qed.

Lemma trace_local_handleJudgeClick : trace_local handleJudgeClick.
Proof.
  unfold handleJudgeClick, getJudgment. trace_local_tac.
Qed.

Lemma trace_local_handleAppeal : trace_local handleAppeal.
Proof.
  unfold handleAppeal. trace_local_tac.
Qed.

Lemma trace_local_handleAcceptVerdict : trace_local handleAcceptVerdict.
Proof.
  unfold handleAcceptVerdict. trace_local_tac.
Qed.

#[local] Hint Resolve trace_local_loadImages trace_local_handleTypingSound
  trace_local_handleJudgeClick trace_local_handleAppeal
  trace_local_handleAcceptVerdict : trace_local.

Lemma trace_local_dispatch (a : Action) : trace_local (dispatch a).
Proof.
  destruct a as [[]|side value now|side name];
    unfold dispatch, click, onChange, onNameChange; trace_local_tac.
Qed.

#[local] Hint Resolve trace_local_dispatch : trace_local.

Lemma trace_local_session (acts : list Action) : trace_local (session acts).
Proof. induction acts; cbn [session]; auto with trace_local. Qed.

#[local] Hint Resolve trace_local_session : trace_local.

(** ** States of a session *)

Lemma then_state (first second : M unit) (env : Env) (s : AppState) :
  trace_local second ->
  final_state (run (then_ first second) env s) =
    final_state (run second env (final_state (run first env s))).
Proof.
  intros H. unfold then_, run, final_state.
  destruct (first env {| ui := s; trace := [] |}) as [c [s1 t1]]; cbn.
  rewrite (H env s1 t1). reflexivity.
Qed.

Lemma then_effects (first second : M unit) (env : Env) (s : AppState) :
  trace_local second ->
  effects (run (then_ first second) env s) =
    effects (run first env s)
    ++ effects (run second env (final_state (run first env s))).
Proof.
  intros H. unfold then_, run, final_state, effects.
  destruct (first env {| ui := s; trace := [] |}) as [c [s1 t1]]; cbn.
  rewrite (H env s1 t1). reflexivity.
Qed.

Lemma session_cons_state (env : Env) (a : Action) (rest : list Action)
    (s : AppState) :
  final_state (run (session (a :: rest)) env s) =
    final_state (run (session rest) env (final_state (run (dispatch a) env s))).
Proof. cbn [session]. apply then_state. auto with trace_local. Qed.

(** A property kept by every action is kept by every session. *)
Lemma session_invariant (P : AppState -> Prop) :
  (forall env a s, P s -> P (final_state (run (dispatch a) env s))) ->
  forall env acts s, P s -> P (final_state (run (session acts) env s)).
Proof.
  intros Hstep env acts. induction acts as [|a rest IH]; intros s Hs.
  - exact Hs.
  - rewrite session_cons_state. apply IH, Hstep, Hs.
Qed.

Lemma click_run (b : Click) (env : Env) (s : AppState) :
  run (click b) env s =
    match b with
    | ClickJudge =>
        if negb (is_some (verdict s))
           && negb (isJudging s || negb (truthy (catArg s))
                    || negb (truthy (dogArg s)))
        then run handleJudgeClick env s
        else (Normal tt, {| ui := s; trace := [] |})
    | ClickAccept =>
        if is_some (verdict s) then run handleAcceptVerdict env s
        else (Normal tt, {| ui := s; trace := [] |})
    | ClickAppeal =>
        if is_some (verdict s) then run handleAppeal env s
        else (Normal tt, {| ui := s; trace := [] |})
    end.
Proof.
  unfold click, run, bind, get, ret, render.
  cbn [ui judgeButton judgeButtonDisabled acceptButton appealButton].
  destruct b;
    match goal with |- (if ?c then _ else _) _ _ = _ => destruct c end;
    reflexivity.
Qed.

(** What one action can do to the history, the verdict and the arguments:
    nothing; or, with no verdict on screen, leave the history alone (typing,
    a failed judgment); put a verdict on two arguments that pass the guard;
    empty the history (accept); or file the round on screen (appeal). *)
Lemma dispatch_step (env : Env) (a : Action) (s : AppState) :
  let s' := final_state (run (dispatch a) env s) in
  (history s' = history s /\ verdict s' = verdict s
   /\ catArg s' = catArg s /\ dogArg s' = dogArg s)
  \/ (verdict s = None /\ history s' = history s /\ verdict s' = None)
  \/ (history s' = history s /\ catArg s' = catArg s /\ dogArg s' = dogArg s
      /\ argued (catArg s) (dogArg s) /\ exists v, verdict s' = Some v)
  \/ (history s' = [] /\ verdict s' = None)
  \/ (exists v, verdict s = Some v
                /\ history s' = history s ++ [newRound s v]
                /\ verdict s' = None).
Proof.
  cbv zeta. destruct a as [[]|side value now|side name].
  - (* the judge button *)
    cbn [dispatch]. rewrite click_run.
    destruct (verdict s) as [v|] eqn:Hv; cbn [is_some negb andb].
    { left. repeat split; auto. }
    destruct (negb _); [|left; repeat split; auto].
    destruct (blank (catArg s) || blank (dogArg s)) eqn:G.
    + rewrite (handleJudgeClick_blocked env s G). left. repeat split; auto.
    + rewrite (handleJudgeClick_submitted env s G).
      destruct (gemini_judgment env _ _ _ _ _) as [v|e].
      * right; right; left. repeat split; try (apply trim_guard in G; tauto).
        exists v. reflexivity.
      * right; left. repeat split.
  - (* accept *)
    cbn [dispatch]. rewrite click_run.
    destruct (verdict s) as [v|] eqn:Hv; cbn [is_some].
    + right; right; right; left. split; reflexivity.
    + left. repeat split; auto.
  - (* appeal *)
    cbn [dispatch]. rewrite click_run.
    destruct (verdict s) as [v|] eqn:Hv; cbn [is_some].
    + right; right; right; right. exists v.
      unfold handleAppeal. js_simpl. rewrite Hv. repeat split.
    + left. repeat split; auto.
  - (* a keystroke *)
    unfold dispatch, onChange, handleTypingSound, render. js_simpl.
    destruct (isJudging s); cbn; [left; repeat split|].
    destruct (verdict s) as [v|] eqn:Hv; cbn; [left; repeat split; auto|].
    right; left.
    destruct side; cbn; destruct (_ >? _)%Z; cbn; repeat split; auto.
  - (* a new name *)
    left. destruct side; repeat split.
Qed.

(** ** The mount effect, whatever the services do *)

(** [loadImages] ends normally, and all it does to the state is to clear the
    loading flag and, when it has a record, to store it; a record it stores
    has its three images. Which of the two happens depends on the services
    only. *)
Lemma loadImages_state (env : Env) :
  exists o : option CharacterImages,
    (forall s, fst (run loadImages env s) = Normal tt
               /\ final_state (run loadImages env s) = paint o false s)
    /\ (forall c, o = Some c ->
          judge c <> None /\ catDebater c <> None /\ dogDebater c <> None).
Proof.
  destruct (served_from_cache env) eqn:Hs.
  - unfold served_from_cache in Hs.
    destruct (db_load env STORAGE_KEY) as [[c|]|e] eqn:Hl; try discriminate.
    exists (Some c). split.
    + intros s. rewrite (loadImages_hit env s Hl Hs). split; reflexivity.
    + intros c' Hc. injection Hc as <-.
      apply cache_hit_fully_populated in Hs.
      destruct Hs as ((j & -> & _) & (k & -> & _) & (d & -> & _)).
      repeat split; discriminate.
  - destruct (generation_join env) as [[[j c] d]|e] eqn:Hj.
    + exists (Some (generated j c d)). split.
      * intros s. rewrite (loadImages_generates env s Hs), generateImages_run, Hj.
        split; reflexivity.
      * intros c' Hc. injection Hc as <-. cbn. repeat split; discriminate.
    + exists None. split.
      * intros s. rewrite (loadImages_generates env s Hs), generateImages_run, Hj.
        split; reflexivity.
      * discriminate.
Qed.

(** X1. Whatever the store and the image service answer (a failed load, a
    failed generation, a failed save), [loadImages] ends normally with the
    loading flag cleared, and it changes no cell of the session: names,
    arguments, verdict, judging flag, history and typing timestamp are as
    they were. *)
Theorem loadImages_settles (env : Env) (s : AppState) :
  let r := run loadImages env s in
  fst r = Normal tt
  /\ loadingImages (final_state r) = false
  /\ catName (final_state r) = catName s
  /\ dogName (final_state r) = dogName s
  /\ catArg (final_state r) = catArg s
  /\ dogArg (final_state r) = dogArg s
  /\ verdict (final_state r) = verdict s
  /\ isJudging (final_state r) = isJudging s
  /\ history (final_state r) = history s
  /\ lastTypeTime (final_state r) = lastTypeTime s.
Proof.
  cbv zeta. destruct (loadImages_state env) as (o & Hrun & _).
  destruct (Hrun s) as [Hc Hf]. rewrite Hf. split; [exact Hc|].
  unfold paint. destruct o; repeat split.
Qed.

(** X3. The image cell never holds a partial record: after [loadImages] the
    images are the ones that were there before (none, at mount), or a record
    whose three images are all non-null. *)
Theorem loadImages_never_partial (env : Env) (s : AppState) :
  let after := images (final_state (run loadImages env s)) in
  after = images s
  \/ (judge after <> None /\ catDebater after <> None
      /\ dogDebater after <> None).
Proof.
  cbv zeta. destruct (loadImages_state env) as (o & Hrun & Hfull).
  rewrite (proj2 (Hrun s)). unfold paint. destruct o as [c|]; cbn.
  - right. apply Hfull. reflexivity.
  - left. reflexivity.
Qed.

(** X2. When the three images are generated and the save is rejected, the
    images are kept on screen all the same: the image cell holds the new
    record, the loading flag is cleared, the save was tried once, and the
    rejection is the last thing logged, under the message of a generation
    failure. *)
Theorem loadImages_save_failure (env : Env) (s : AppState)
    (judgeImg catImg dogImg : jsstring) (e : exn) :
  served_from_cache env = false ->
  gemini_image env (CharacterPrompts JUDGE) = Fulfilled judgeImg ->
  gemini_image env (CharacterPrompts CAT_DEBATER) = Fulfilled catImg ->
  gemini_image env (CharacterPrompts DOG_DEBATER) = Fulfilled dogImg ->
  db_save env STORAGE_KEY (generated judgeImg catImg dogImg) = Rejected e ->
  let r := run loadImages env s in
  fst r = Normal tt
  /\ images (final_state r) = generated judgeImg catImg dogImg
  /\ loadingImages (final_state r) = false
  /\ saves (effects r) = [(STORAGE_KEY, generated judgeImg catImg dogImg)]
  /\ exists before,
       effects r =
         before
         ++ [EvConsoleError (Some (utf16 "Failed to generate images:")) e].
Proof.
  intros Hs Hj Hc Hd Hsave. cbv zeta.
  assert (J : generation_join env = Fulfilled (judgeImg, catImg, dogImg))
    by (apply Promise_all3_fulfilled; auto).
  rewrite (loadImages_generates env s Hs), generateImages_run, J.
  cbv zeta. rewrite Hsave. unfold final_state, effects. cbn [fst snd ui trace].
  split; [reflexivity|]. split; [reflexivity|]. split; [reflexivity|]. split.
  - rewrite !saves_app. destruct (db_load env STORAGE_KEY); reflexivity.
  - eexists. rewrite !app_assoc. reflexivity.
Qed.

(** A full disk: three images drawn, none saved, all three shown. *)
Lemma loadImages_save_failure_witness :
  images (final_state (run loadImages fullDiskEnv initialState)) =
    generated (utf16 "data:image/png;base64,AAAA")
              (utf16 "data:image/png;base64,AAAA")
              (utf16 "data:image/png;base64,AAAA")
  /\ loadingImages (final_state (run loadImages fullDiskEnv initialState))
     = false.
Proof.
  pose proof (loadImages_save_failure fullDiskEnv initialState
                eq_refl eq_refl eq_refl eq_refl eq_refl) as H.
  cbv zeta in H. destruct H as (_ & Hi & Hl & _).
  split; [exact Hi | exact Hl].
Defined.

(** ** A judgment, whatever the service does *)

(** X4. From every state and whatever the judgment service answers,
    [handleJudgeClick] ends normally and writes only the verdict and the
    judging flag: images, loading flag, names, arguments, history and typing
    timestamp are as they were. It makes at most one judgment call, never a
    second one after a failure, and either it changed nothing or the judging
    flag is false at the end. *)
Theorem handleJudgeClick_frame (env : Env) (s : AppState) :
  let r := run handleJudgeClick env s in
  fst r = Normal tt
  /\ images (final_state r) = images s
  /\ loadingImages (final_state r) = loadingImages s
  /\ catName (final_state r) = catName s
  /\ dogName (final_state r) = dogName s
  /\ catArg (final_state r) = catArg s
  /\ dogArg (final_state r) = dogArg s
  /\ history (final_state r) = history s
  /\ lastTypeTime (final_state r) = lastTypeTime s
  /\ (List.length (judgment_calls (effects r)) <= 1)%nat
  /\ (final_state r = s \/ isJudging (final_state r) = false).
Proof.
  cbv zeta. destruct (blank (catArg s) || blank (dogArg s)) eqn:G.
  - rewrite (handleJudgeClick_blocked env s G). cbn.
    repeat split; auto. 
  - rewrite (handleJudgeClick_submitted env s G).
    destruct (gemini_judgment env _ _ _ _ _); cbn; repeat split; auto.
Qed.

(** ** Actions and the mount effect *)

(** No action reads or writes the two image cells. *)
Lemma dispatch_paint (env : Env) (a : Action) (o : option CharacterImages)
    (loading : bool) (s : AppState) :
  final_state (run (dispatch a) env (paint o loading s)) =
    paint o loading (final_state (run (dispatch a) env s)).
Proof.
  destruct a as [[]|side value now|side name].
  - cbn [dispatch]. rewrite !click_run.
    assert (E : forall f : AppState -> bool,
               (f = (fun x => negb (is_some (verdict x))
                              && negb (isJudging x || negb (truthy (catArg x))
                                       || negb (truthy (dogArg x))))) ->
               f (paint o loading s) = f s).
    { intros f ->. destruct o; reflexivity. }
    specialize (E _ eq_refl). cbv beta in E. rewrite E.
    destruct (negb (is_some (verdict s)) && _); [|reflexivity].
    destruct (blank (catArg s) || blank (dogArg s)) eqn:G.
    + rewrite (handleJudgeClick_blocked env s G).
      rewrite handleJudgeClick_blocked; [reflexivity|].
      destruct o; exact G.
    + rewrite (handleJudgeClick_submitted env s G).
      rewrite handleJudgeClick_submitted by (destruct o; exact G).
      destruct o; cbn;
        destruct (gemini_judgment env _ _ _ _ _); reflexivity.
  - cbn [dispatch]. rewrite !click_run.
    destruct o; cbn; destruct (verdict s); reflexivity.
  - cbn [dispatch]. rewrite !click_run. unfold handleAppeal.
    destruct o; js_simpl; cbn; destruct (verdict s); reflexivity.
  - unfold dispatch, onChange, handleTypingSound, render.
    destruct o; js_simpl; cbn;
      destruct (isJudging s); cbn; try reflexivity;
      destruct (verdict s); cbn; try reflexivity;
      destruct side; cbn; destruct (_ >? _)%Z; reflexivity.
  - destruct o, side; reflexivity.
Qed.

Lemma session_paint (env : Env) (acts : list Action)
    (o : option CharacterImages) (loading : bool) :
  forall s,
    final_state (run (session acts) env (paint o loading s)) =
      paint o loading (final_state (run (session acts) env s)).
Proof.
  induction acts as [|a rest IH]; intros s.
  - reflexivity.
  - rewrite !session_cons_state, dispatch_paint. apply IH.
Qed.

(** X5. The mount effect and the actions of the user do not interfere: a
    session of actions ends in the same state whether [loadImages] ran
    before it or after it. *)
Theorem loadImages_commutes (env : Env) (acts : list Action) (s : AppState) :
  final_state (run (then_ loadImages (session acts)) env s) =
    final_state (run (then_ (session acts) loadImages) env s).
Proof.
  rewrite !then_state by auto with trace_local.
  destruct (loadImages_state env) as (o & Hrun & _).
  rewrite (proj2 (Hrun s)), (proj2 (Hrun (final_state (run (session acts) env s)))).
  apply session_paint.
Qed.

(** ** What every session keeps *)

Lemma numbered_snoc (h : list CaseRound.t) (r : CaseRound.t) :
  numbered h ->
  CaseRound.roundNumber r = (Z.of_nat (List.length h) + 1)%Z ->
  numbered (h ++ [r]).
Proof.
  unfold numbered. intros Hh Hr.
  rewrite map_app, length_app, Nat.add_1_r, seq_S, map_app, Hh. cbn [map].
  rewrite Hr. do 2 f_equal. lia.
Qed.

Lemma numbered_NoDup (h : list CaseRound.t) :
  numbered h -> NoDup (map CaseRound.roundNumber h).
Proof.
  unfold numbered. intros ->.
  apply NoDup_map_NoDup_ForallPairs; [|apply seq_NoDup].
  intros a b _ _. apply Nat2Z.inj.
Qed.

Lemma numbered_step (env : Env) (a : Action) (s : AppState) :
  numbered (history s) ->
  numbered (history (final_state (run (dispatch a) env s))).
Proof.
  intros H.
  destruct (dispatch_step env a s)
    as [(Hh & _)|[(_ & Hh & _)|[(Hh & _)|[(Hh & _)|(v & _ & Hh & _)]]]];
    rewrite Hh; try exact H.
  - reflexivity.
  - apply numbered_snoc; [exact H | reflexivity].
Qed.

(** X6. Over the whole life of the page (the mount effect, then any sequence
    of clicks, keystrokes and renamings, each handled to completion, with any
    answers of the services) the rounds of the history are numbered 1, 2, ...
    in order. So the keys given to React for the history log are distinct,
    and the round number of the banner, when shown, is one more than the
    number of the last round of the log. *)
Theorem history_numbered (env : Env) (acts : list Action) :
  let s := final_state (run (app acts) env initialState) in
  historyKeys s = map Z.of_nat (seq 1 (List.length (history s)))
  /\ NoDup (historyKeys s)
  /\ forall n, appealBanner s = Some n ->
               n = (last (historyKeys s) 0 + 1)%Z.
Proof.
  cbv zeta. unfold app. rewrite then_state by auto with trace_local.
  set (s := final_state (run (session acts) env _)).
  assert (H : numbered (history s)).
  { apply (session_invariant (fun x => numbered (history x))).
    - apply numbered_step.
    - destruct (loadImages_state env) as (o & Hrun & _).
      rewrite (proj2 (Hrun initialState)). destruct o; reflexivity. }
  split; [exact H|]. split; [apply numbered_NoDup, H|].
  unfold appealBanner, historyKeys. rewrite H.
  destruct (history s) as [|r h] using rev_ind; cbn [List.length].
  - cbn. discriminate.
  - clear IHh. intros n.
    destruct (0 <? Z.of_nat (List.length (h ++ [r])))%Z; [|discriminate].
    intros Hn. injection Hn as <-.
    rewrite length_app, Nat.add_1_r, seq_S, map_app. cbn [map List.length].
    rewrite last_last. lia.
Qed.

Lemma well_argued_step (env : Env) (a : Action) (s : AppState) :
  well_argued s -> well_argued (final_state (run (dispatch a) env s)).
Proof.
  unfold well_argued. intros (Hh & Hv).
  destruct (dispatch_step env a s)
    as [(E1 & E2 & E3 & E4)|[(_ & E1 & E2)|[(E1 & E3 & E4 & Ha & _)
       |[(E1 & E2)|(v & Hs & E1 & E2)]]]]; rewrite E1.
  - rewrite E2, E3, E4. split; assumption.
  - rewrite E2. split; [assumption | discriminate].
  - rewrite E3, E4. split; [assumption | intros _ _; exact Ha].
  - rewrite E2. split; [constructor | discriminate].
  - rewrite E2. split; [|discriminate].
    apply Forall_app. split; [assumption|].
    constructor; [|constructor]. exact (Hv v Hs).
Qed.

(** X7. Over the whole life of the page, a verdict is only ever on screen
    with two arguments that are non-empty after trimming, and every round
    filed in the history holds two such arguments: no round with a blank
    argument is ever sent back to the judge. *)
Theorem history_well_argued (env : Env) (acts : list Action) :
  let s := final_state (run (app acts) env initialState) in
  (forall r, In r (history s) ->
             trim (CaseRound.catArg r) <> [] /\ trim (CaseRound.dogArg r) <> [])
  /\ (forall v, verdict s = Some v ->
                trim (catArg s) <> [] /\ trim (dogArg s) <> []).
Proof.
  cbv zeta. unfold app. rewrite then_state by auto with trace_local.
  set (s := final_state (run (session acts) env _)).
  assert (H : well_argued s).
  { apply (session_invariant well_argued).
    - apply well_argued_step.
    - destruct (loadImages_state env) as (o & Hrun & _).
      rewrite (proj2 (Hrun initialState)). unfold well_argued.
      destruct o; cbn; (split; [constructor | discriminate]). }
  destruct H as (Hh & Hv). split; [|exact Hv].
  intros r Hr. exact (proj1 (Forall_forall _ _) Hh r Hr).
Qed.

(** ** From one round to the next *)

Lemma judgment_calls_app (t1 t2 : list Event) :
  judgment_calls (t1 ++ t2) = judgment_calls t1 ++ judgment_calls t2.
Proof. apply flat_map_app. Qed.

Lemma trim_truthy (text : jsstring) : trim text <> [] -> truthy text = true.
Proof. destruct text; [intros H; exfalso; apply H|]; reflexivity. Qed.

(** The judge button, pressed with no verdict on screen, no judgment pending
    and two arguments that pass the guard. *)
Lemma judge_press (env : Env) (s : AppState) :
  verdict s = None -> isJudging s = false -> argued (catArg s) (dogArg s) ->
  judgment_calls (effects (run (dispatch (Press ClickJudge)) env s)) =
    [judgmentCall s].
Proof.
  intros Hv Hj [Hc Hd]. cbn [dispatch]. rewrite click_run, Hv, Hj.
  rewrite (trim_truthy _ Hc), (trim_truthy _ Hd). cbn [is_some negb andb orb].
  rewrite (handleJudgeClick_submitted env s (proj2 (trim_guard _ _) (conj Hc Hd))).
  destruct (gemini_judgment env _ _ _ _ _); reflexivity.
Qed.

(** A keystroke in an enabled text area. *)
Lemma keystroke_enabled (env : Env) (s : AppState) (side : Side)
    (value : jsstring) (now : Z) :
  verdict s = None -> isJudging s = false ->
  let r := run (dispatch (Keystroke side value now)) env s in
  catArg (final_state r) = (if same_side CatSide side then value else catArg s)
  /\ dogArg (final_state r) = (if same_side DogSide side then value else dogArg s)
  /\ verdict (final_state r) = None
  /\ isJudging (final_state r) = false
  /\ catName (final_state r) = catName s
  /\ dogName (final_state r) = dogName s
  /\ history (final_state r) = history s
  /\ judgment_calls (effects r) = [].
Proof.
  intros Hv Hj. cbv zeta.
  unfold dispatch, onChange, handleTypingSound, render. js_simpl.
  rewrite Hv, Hj. cbn.
  destruct side; cbn; destruct (_ >? _)%Z; cbn; repeat split; assumption.
Qed.

(** The appeal button, pressed with a verdict on screen. *)
Lemma appeal_press (env : Env) (s : AppState) (v : Verdict) :
  verdict s = Some v ->
  let r := run (dispatch (Press ClickAppeal)) env s in
  history (final_state r) = history s ++ [newRound s v]
  /\ verdict (final_state r) = None
  /\ isJudging (final_state r) = isJudging s
  /\ catName (final_state r) = catName s
  /\ dogName (final_state r) = dogName s
  /\ judgment_calls (effects r) = [].
Proof.
  intros Hv. cbv zeta. cbn [dispatch]. rewrite click_run, Hv. cbn [is_some].
  unfold handleAppeal. js_simpl. rewrite Hv. repeat split.
Qed.

(** X8. The next judgment sees the round just appealed. From a state showing
    a verdict, with no judgment pending: after an appeal, new text typed in
    each of the two text areas (both passing the guard) and a press of the
    judge button, exactly one judgment call has been made; it carries the two
    new texts, the names as they stand, and the former history followed by
    the round that held the appealed verdict with its two arguments. *)
Theorem appeal_then_judgment (env : Env) (s : AppState) (v : Verdict)
    (a b : jsstring) (t1 t2 : Z) :
  verdict s = Some v ->
  isJudging s = false ->
  trim a <> [] ->
  trim b <> [] ->
  judgment_calls
    (effects (run (session [Press ClickAppeal; Keystroke CatSide a t1;
                            Keystroke DogSide b t2; Press ClickJudge]) env s)) =
    [GetJudgment a b
       (or_else (catName s) defaultCatName) (or_else (dogName s) defaultDogName)
       (history s ++
          [ {| CaseRound.roundNumber := Z.of_nat (List.length (history s)) + 1;
               CaseRound.catArg := catArg s;
               CaseRound.dogArg := dogArg s;
               CaseRound.verdict := v |} ])].
Proof.
  intros Hv Hj Ha Hb. cbn [session].
  rewrite !then_effects by auto with trace_local.
  rewrite !judgment_calls_app.
  destruct (appeal_press env s Hv) as (H1 & V1 & J1 & C1 & D1 & E1).
  rewrite Hj in J1. cbv zeta in *.
  set (s1 := final_state (run (dispatch (Press ClickAppeal)) env s)) in *.
  destruct (keystroke_enabled env s1 CatSide a t1 V1 J1)
    as (A2 & B2 & V2 & J2 & C2 & D2 & H2 & E2).
  cbv zeta in *.
  set (s2 := final_state (run (dispatch (Keystroke CatSide a t1)) env s1)) in *.
  destruct (keystroke_enabled env s2 DogSide b t2 V2 J2)
    as (A3 & B3 & V3 & J3 & C3 & D3 & H3 & E3).
  cbv zeta in *.
  set (s3 := final_state (run (dispatch (Keystroke DogSide b t2)) env s2)) in *.
  cbn [same_side] in *.
  assert (G : argued (catArg s3) (dogArg s3)).
  { unfold argued. rewrite A3, A2, B3. split; assumption. }
  rewrite E1, E2, E3, (judge_press env s3 V3 J3 G). cbn [app effects run].
  unfold judgmentCall.
  rewrite A3, A2, B3, C3, C2, C1, D3, D2, D1, H3, H2, H1. reflexivity.
Qed.

(** The example of the specification, appealed: the second judgment is asked
    with round 1 in its history. *)
Lemma appeal_then_judgment_witness :
  judgment_calls
    (effects
       (run (session [Press ClickAppeal;
                      Keystroke CatSide (utf16 "I sat in it first") 5000;
                      Keystroke DogSide (utf16 "sharing is caring") 9000;
                      Press ClickJudge]) happyEnv boxVerdict)) =
    [GetJudgment (utf16 "I sat in it first") (utf16 "sharing is caring")
       defaultCatName defaultDogName
       [ {| CaseRound.roundNumber := 1;
            CaseRound.catArg := utf16 "the box is mine";
            CaseRound.dogArg := utf16 "I share everything";
            CaseRound.verdict := sampleVerdict |} ]].
Proof.
  assert (Ha : trim (utf16 "I sat in it first") <> [])
    by (vm_compute; discriminate).
  assert (Hb : trim (utf16 "sharing is caring") <> [])
    by (vm_compute; discriminate).
  exact (@appeal_then_judgment happyEnv boxVerdict sampleVerdict
           (utf16 "I sat in it first") (utf16 "sharing is caring") 5000 9000
           eq_refl eq_refl Ha Hb).
Defined.

(** ** Accept and appeal, one after the other *)

(** X10. Two appeals in a row file one round only: the second finds no
    verdict and does nothing. An accept wipes what an appeal has just filed,
    an appeal after an accept does nothing, and a second accept changes
    nothing more. *)
Theorem accept_appeal_compose (env : Env) (s : AppState) :
  run (then_ handleAppeal handleAppeal) env s = run handleAppeal env s
  /\ final_state (run (then_ handleAppeal handleAcceptVerdict) env s) =
       final_state (run handleAcceptVerdict env s)
  /\ final_state (run (then_ handleAcceptVerdict handleAppeal) env s) =
       final_state (run handleAcceptVerdict env s)
  /\ effects (run (then_ handleAcceptVerdict handleAppeal) env s) =
       effects (run handleAcceptVerdict env s)
  /\ final_state (run (then_ handleAcceptVerdict handleAcceptVerdict) env s) =
       final_state (run handleAcceptVerdict env s).
Proof.
  unfold then_, handleAppeal, handleAcceptVerdict. js_simpl.
  destruct (verdict s) eqn:Hv; cbn; rewrite ?Hv; cbn; repeat split.
Qed.

(** ** Typing in the two text areas *)

Lemma onChange_run (env : Env) (s : AppState) (side : Side)
    (value : jsstring) (now : Z) :
  run (onChange side value now) env s =
    let typed :=
      match side with
      | CatSide => with_catArg value s
      | DogSide => with_dogArg value s
      end in
    if (now - lastTypeTime s >? 100)%Z
    then (Normal tt,
          {| ui := with_lastTypeTime now typed;
             trace := [EvPlaySound typing] |})
    else (Normal tt, {| ui := typed; trace := [] |}).
Proof.
  unfold onChange, handleTypingSound. js_simpl.
  destruct side; cbn; destruct (_ >? _)%Z; reflexivity.
Qed.

Lemma onChange_session_cons (env : Env) (side : Side) (value : jsstring)
    (now : Z) (rest : list (Side * jsstring * Z)) (s : AppState) :
  onChange_session env ((side, value, now) :: rest) s =
    let r := run (onChange side value now) env s in
    ((now, played (effects r)) :: fst (onChange_session env rest (final_state r)),
     snd (onChange_session env rest (final_state r))).
Proof.
  cbn [onChange_session]. cbv zeta.
  destruct (onChange_session env rest _); reflexivity.
Qed.

Lemma last_typed_cons (side key_side : Side) (value : jsstring) (now : Z)
    (rest : list (Side * jsstring * Z)) (initial : jsstring) :
  last_typed side ((key_side, value, now) :: rest) initial =
    last_typed side rest (if same_side side key_side then value else initial).
Proof. reflexivity. Qed.

(** The typing sound hears the timestamps only: which area a keystroke is in
    and what it types make no difference to the log. *)
Lemma onChange_session_log (env : Env) (keys : list (Side * jsstring * Z)) :
  forall s s0 : AppState,
    lastTypeTime s = lastTypeTime s0 ->
    fst (onChange_session env keys s) =
      fst (typing_session env (map snd keys) s0).
Proof.
  induction keys as [|[[side value] now] rest IH]; intros s s0 E.
  - reflexivity.
  - cbn [map snd]. rewrite onChange_session_cons, typing_session_cons.
    cbv zeta. cbn [fst].
    rewrite onChange_run, handleTypingSound_run. cbv zeta.
    replace (lastTypeTime s0) with (lastTypeTime s).
    destruct (now - lastTypeTime s >? 100)%Z; cbn; f_equal; apply IH;
      destruct side; cbn; congruence.
Qed.

Lemma onChange_session_text (env : Env) (keys : list (Side * jsstring * Z)) :
  forall s : AppState,
    catArg (snd (onChange_session env keys s)) =
      last_typed CatSide keys (catArg s)
    /\ dogArg (snd (onChange_session env keys s)) =
         last_typed DogSide keys (dogArg s).
Proof.
  induction keys as [|[[side value] now] rest IH]; intros s.
  - split; reflexivity.
  - rewrite onChange_session_cons, !last_typed_cons. cbv zeta. cbn [snd].
    rewrite onChange_run. cbv zeta.
    destruct (now - lastTypeTime s >? 100)%Z; unfold final_state; cbn [snd ui];
      match goal with |- context [onChange_session env rest ?x] =>
        destruct (IH x) as [Hc Hd] end;
      rewrite Hc, Hd; destruct side; split; reflexivity.
Qed.

(** X9. The two text areas share one throttle. For any run of keystrokes over
    the two areas, the typing sound plays on exactly the keystrokes it would
    play on if all were typed in one place; two keystrokes on which it plays
    are more than 100 ms apart, also when they are in different areas; and at
    the end each argument is the text of the last keystroke in its area (or
    what it was, if there was none). *)
Theorem onChange_shared_throttle (env : Env)
    (keys : list (Side * jsstring * Z)) (s : AppState) :
  let log := fst (onChange_session env keys s) in
  let final := snd (onChange_session env keys s) in
  log = fst (typing_session env (map snd keys) s)
  /\ (forall i j ti tj,
        (i < j)%nat ->
        nth_error log i = Some (ti, true) ->
        nth_error log j = Some (tj, true) ->
        (tj - ti > 100)%Z)
  /\ catArg final = last_typed CatSide keys (catArg s)
  /\ dogArg final = last_typed DogSide keys (dogArg s).
Proof.
  cbv zeta. rewrite (onChange_session_log env keys s s eq_refl).
  split; [reflexivity|]. split.
  - apply typing_session_spaced.
  - apply onChange_session_text.
Qed.

(** The cat types at 1000 and 1200 ms, the dog in between at 1050 and right
    after at 1250: the dog is never heard. *)
Example onChange_alternating :
  onChange_session happyEnv
    [(CatSide, utf16 "m", 1000); (DogSide, utf16 "w", 1050);
     (CatSide, utf16 "me", 1200); (DogSide, utf16 "wo", 1250)]%Z
    initialState =
  ([(1000, true); (1050, false); (1200, true); (1250, false)]%Z,
   with_lastTypeTime 1200
     (with_dogArg (utf16 "wo") (with_catArg (utf16 "me") initialState))).
Proof. reflexivity. Qed.
